(** * A poller over a Redis sorted set used as a queue

    Shallow embedding of [redis_zset_based_poller.py]
    (class [RedisSortedSetQueuePoller]) and the properties of its
    claim / snapshot / recovery protocol.

    Layout:
    - [Redis]: the ordered key-score store the poller talks to (sorted sets
      held under string keys) with the commands the poller issues;
    - [Py]: the fragment of Python the class needs: dynamic values,
      exceptions, and a state-and-exception monad;
    - [Poller]: the methods of the class, one definition per method, and
      the vocabulary of the properties;
    - [Examples]: concrete pollers and stores;
    - [RedisFacts], [PollerFacts]: how the store and the methods compute;
    - [Protocol]: the properties of the protocol. *)

From Stdlib Require Import ZArith String Ascii.
From stdpp Require Import gmap strings list sorting.

Local Open Scope string_scope.
Local Open Scope list_scope.
Local Open Scope Z_scope.

(** ** The store

    Modelled from the spec: the ordered key-score store is the external
    collaborator of the poller (a Redis server); its commands are those of
    the store adapter contract: range read by rank with scores, add,
    remove, union-store, existence check and cardinality. *)

Module Redis.

(** A sorted set maps each member to its score; a store maps keys to
    sorted sets.  Scores are modelled as integers. *)
Abbreviation zset := (gmap string Z).
Abbreviation Store := (gmap string (gmap string Z)).

(** An entry as a range read [withscores=True] returns it:
    [(member, score)]. *)
Definition item : Type := string * Z.

(** The store's native order: by score, members of equal score in
    lexicographic order. *)
Definition item_le (a b : item) : Prop :=
  a.2 < b.2 ∨ (a.2 = b.2 ∧ String.leb a.1 b.1 = true).

Global Instance item_le_dec (a b : item) : Decision (item_le a b).
Proof. unfold item_le. apply _. Defined.

(** The sorted set stored under [key]; a missing key reads as the empty
    set. *)
Definition zset_at (key : string) (db : Store) : zset :=
  default ∅ (db !! key).

(** Storing a sorted set; a set that became empty removes its key. *)
Definition put (key : string) (z : zset) (db : Store) : Store :=
  if bool_decide (z = ∅) then delete key db else <[key := z]> db.

(** All entries of a sorted set, lowest rank first. *)
Definition ranked (z : zset) : list item :=
  merge_sort item_le (map_to_list z).

(** Ranks [start..stop], both inclusive. *)
Definition slice {A} (start stop : nat) (l : list A) : list A :=
  take (S stop - start) (drop start l).

Definition zrange (key : string) (start stop : nat) (db : Store)
  : list item :=
  slice start stop (ranked (zset_at key db)).

Definition zrevrange (key : string) (start stop : nat) (db : Store)
  : list item :=
  slice start stop (reverse (ranked (zset_at key db))).

(** Add-or-update: an existing member gets the new score. *)
Definition zadd (key : string) (score : Z) (member : string) (db : Store)
  : Store :=
  <[key := <[member := score]> (zset_at key db)]> db.

Definition zrem (key : string) (member : string) (db : Store) : Store :=
  put key (delete member (zset_at key db)) db.

(** Union of two sorted sets; a member of both gets the sum of its
    scores. *)
Definition zunion (z1 z2 : zset) : zset :=
  union_with (λ a b, Some (a + b)) z1 z2.

(** Modelled from the spec: union-store, [merge(destKey, [sourceKeys])],
    overwrites [dest] with the sum-of-scores union of the sets under
    [keys].  The previous value of [dest] takes no part in the result
    unless [dest] is one of [keys] (the command [ZUNIONSTORE] of Redis). *)
Definition zunionstore (dest : string) (keys : list string) (db : Store)
  : Store :=
  put dest (foldl (λ acc k, zunion acc (zset_at k db)) ∅ keys) db.

Definition exists_ (key : string) (db : Store) : bool :=
  bool_decide (is_Some (db !! key)).

Definition zcard (key : string) (db : Store) : nat :=
  size (zset_at key db).

(** The commands a pipeline can hold back until the transaction
    commits. *)
Inductive command :=
| ZRANGE (key : string) (start stop : nat)
| ZREVRANGE (key : string) (start stop : nat)
| ZADD (key : string) (score : Z) (member : string)
| ZREM (key : string) (member : string)
| ZUNIONSTORE (dest : string) (keys : list string)
| EXISTS (key : string)
| ZCARD (key : string).

Global Instance command_eq_dec : EqDecision command.
Proof. solve_decision. Defined.

(** The effect of a command on the store (reads have none). *)
Definition exec (db : Store) (c : command) : Store :=
  match c with
  | ZADD key score member => zadd key score member db
  | ZREM key member => zrem key member db
  | ZUNIONSTORE dest keys => zunionstore dest keys db
  | ZRANGE _ _ _ | ZREVRANGE _ _ _ | EXISTS _ | ZCARD _ => db
  end.

End Redis.

(** ** The fragment of Python the poller is written in *)

Module Py.

(** Dynamically typed values: [None], strings (members, keys) and
    numbers (scores). *)
Inductive value :=
| VNone
| VStr (s : string)
| VNum (z : Z).

Global Instance value_eq_dec : EqDecision value.
Proof. solve_decision. Defined.

(** [v is not None] *)
Definition is_not_None (v : value) : bool :=
  match v with VNone => false | _ => true end.

(** Exceptions.  [KeyboardInterrupt] and [SystemExit] derive from
    [BaseException] only; the others are subclasses of [Exception].
    [UserError] stands for any exception of a callback that prints as its
    message, [Unprintable] for one whose [__str__] raises, [DataError] for
    the store client refusing an argument. *)
Inductive exn :=
| IndexError
| DataError
| UserError (msg : string)
| Unprintable (raised : exn)
| KeyboardInterrupt
| SystemExit.

Global Instance exn_eq_dec : EqDecision exn.
Proof. solve_decision. Defined.

(** [isinstance(e, Exception)] *)
Definition is_Exception (e : exn) : bool :=
  match e with
  | KeyboardInterrupt | SystemExit => false
  | IndexError | DataError | UserError _ | Unprintable _ => true
  end.

Inductive result (A : Type) :=
| Ret (a : A)
| Raise (e : exn).
Global Arguments Ret {A} a.
Global Arguments Raise {A} e.

(** ['%s' % e], that is [str(e)]: the message of the exception, unless
    its [__str__] raises. *)
Definition str (e : exn) : result string :=
  match e with
  | IndexError => Ret "list index out of range"
  | UserError msg => Ret msg
  | Unprintable raised => Raise raised
  | DataError | KeyboardInterrupt | SystemExit => Ret ""
  end.

(** [l[-1]] *)
Definition index_last {A} (l : list A) : result A :=
  match last l with
  | Some x => Ret x
  | None => Raise IndexError
  end.

(** Which connection a command is issued on: the client [self._redis]
    itself, or the pipeline handed to a transaction's function. *)
Inductive conn := Client | Pipe.

Global Instance conn_eq_dec : EqDecision conn.
Proof. solve_decision. Defined.

(** What a run leaves behind for an observer.  A log entry keeps the
    level and the message template of the call (its [%s] arguments are
    not modelled); [LogTraceback] is a [traceback.format_exc()] entry. *)
Inductive event :=
| Log (level template : string)
| LogTraceback (level : string) (e : exn)
| Sleep
| Call (method : string) (args : list value)
| Watch (keys : list string)
| Cmd (via : conn) (c : Redis.command)
| Commit (cs : list Redis.command).

Global Instance event_eq_dec : EqDecision event.
Proof. solve_decision. Defined.

Section state.
(** The part of the world the two callbacks act on. *)
Context {World : Type}.

(** The store, the instance attribute [_next_item], the command stack
    of the open pipeline, and the writes of other actors that will
    invalidate transactions: one list per transaction still to come,
    one write per attempt that loses its race. *)
Record state := State {
  db : Redis.Store;
  _next_item : value * value;
  pending : list Redis.command;
  contention : list (list (Redis.Store → Redis.Store));
  world : World;
  trace : list event
}.

Definition set_db (d : Redis.Store) (st : state) : state :=
  State d (_next_item st) (pending st) (contention st) (world st) (trace st).
Definition set_pending (p : list Redis.command) (st : state) : state :=
  State (db st) (_next_item st) p (contention st) (world st) (trace st).
Definition set_contention (c : list (list (Redis.Store → Redis.Store)))
  (st : state) : state :=
  State (db st) (_next_item st) (pending st) c (world st) (trace st).
Definition set_world (w : World) (st : state) : state :=
  State (db st) (_next_item st) (pending st) (contention st) w (trace st).
Definition emit (e : event) (st : state) : state :=
  State (db st) (_next_item st) (pending st) (contention st) (world st)
    (trace st ++ [e]).

(** Computations: they transform the state and return or raise. *)
Definition M (A : Type) : Type := state → state * result A.

Definition ret {A} (a : A) : M A := λ st, (st, Ret a).
Definition raise {A} (e : exn) : M A := λ st, (st, Raise e).
Definition bind {A B} (m : M A) (k : A → M B) : M B := λ st,
  match m st with
  | (st', Ret a) => k a st'
  | (st', Raise e) => (st', Raise e)
  end.
Definition lift {A} (r : result A) : M A := λ st, (st, r).

(** [try: m except ...: h e]; a handler that does not match re-raises. *)
Definition try_except {A} (m : M A) (h : exn → M A) : M A := λ st,
  match m st with
  | (st', Raise e) => h e st'
  | r => r
  end.

(** [self._next_item = v] and [self._next_item] *)
Definition assign_next_item (v : value * value) : M unit := λ st,
  (State (db st) v (pending st) (contention st) (world st) (trace st),
   Ret tt).
Definition next_item : M (value * value) := λ st, (st, Ret (_next_item st)).

Definition tell (e : event) : M unit := λ st, (emit e st, Ret tt).
End state.
Global Arguments state : clear implicits.
Global Arguments M : clear implicits.

End Py.

Notation "'let*' x ':=' m 'in' k" := (Py.bind m (λ x, k))
  (at level 10, x name, m at level 100, k at level 200, only parsing).
Notation "m1 ;; m2" := (Py.bind m1 (λ _, m2))
  (at level 100, m2 at level 200, right associativity, only parsing).

(** ** The poller *)

Module Poller.
Import Py.

(** An instance: the constructor's arguments the protocol depends on, and
    the two methods a subclass has to override. *)
Record poller (World : Type) := {
  _sorted_set_key : string;
  _reverse : bool;
  ready_to_process : value → value → World → World * result bool;
  process : value → value → World → World * result unit
}.
Global Arguments _sorted_set_key {World} self : rename.
Global Arguments _reverse {World} self : rename.
Global Arguments ready_to_process {World} self score member w : rename.
Global Arguments process {World} self score member w : rename.

Definition SNAPSHOT_SUFFIX : string := "-snapshot".

Section methods.
Context {World : Type}.
Variable self : poller World.

Definition _snapshot_key : string :=
  _sorted_set_key self +:+ SNAPSHOT_SUFFIX.

(** [self.log(level, message)]: never raises. *)
Definition log (level template : string) : M World unit :=
  tell (Log level template).
Definition log_traceback (level : string) (e : exn) : M World unit :=
  tell (LogTraceback level e).

(** *** The store client

    The client [self._redis] and the pipeline [pipe] a transaction hands
    to its function.  A command sent on the client executes at once.  A
    read sent on the pipeline answers at once (the worker of [dequeue]
    uses the answer); a write sent on it is held back until the
    transaction commits.  Members are strings and scores are numbers: the
    client refuses anything else. *)

Definition as_member (v : value) : result string :=
  match v with VStr m => Ret m | _ => Raise DataError end.
Definition as_score (v : value) : result Z :=
  match v with VNum s => Ret s | _ => Raise DataError end.

Definition redis_command (c : Redis.command) : M World unit := λ st,
  (emit (Cmd Client c) (set_db (Redis.exec (db st) c) st), Ret tt).

Definition redis_exists (key : string) : M World bool := λ st,
  (emit (Cmd Client (Redis.EXISTS key)) st,
   Ret (Redis.exists_ key (db st))).

Definition redis_zcard (key : string) : M World nat := λ st,
  (emit (Cmd Client (Redis.ZCARD key)) st,
   Ret (Redis.zcard key (db st))).

Definition redis_zunionstore (dest : string) (keys : list string)
  : M World unit :=
  redis_command (Redis.ZUNIONSTORE dest keys).

Definition redis_zrem (key : string) (member : value) : M World unit :=
  let* m := lift (as_member member) in
  redis_command (Redis.ZREM key m).

Definition with_scores (i : Redis.item) : value * value :=
  (VStr i.1, VNum i.2).

(** [getattr(pipe, method)(key, start, stop, withscores=True)] *)
Definition pipe_range (method : string) (key : string) (start stop : nat)
  : M World (list (value * value)) := λ st,
  if String.eqb method "zrevrange" then
    (emit (Cmd Pipe (Redis.ZREVRANGE key start stop)) st,
     Ret (with_scores <$> Redis.zrevrange key start stop (db st)))
  else
    (emit (Cmd Pipe (Redis.ZRANGE key start stop)) st,
     Ret (with_scores <$> Redis.zrange key start stop (db st))).

Definition pipe_command (c : Redis.command) : M World unit := λ st,
  (emit (Cmd Pipe c) (set_pending (pending st ++ [c]) st), Ret tt).

Definition pipe_zrem (key : string) (member : value) : M World unit :=
  let* m := lift (as_member member) in
  pipe_command (Redis.ZREM key m).

Definition pipe_zadd (key : string) (score member : value)
  : M World unit :=
  let* s := lift (as_score score) in
  let* m := lift (as_member member) in
  pipe_command (Redis.ZADD key s m).

(** Modelled from the spec: [runTransaction(watchedKeys, userFn)] executes
    [userFn] against a buffered command context, retries the whole
    [userFn] on a watched-key conflict, and commits atomically otherwise.
    Here are the attempts of one transaction: [func] runs on a fresh
    pipeline; an exception leaves without committing; with no rival write
    left the held-back commands are executed in order; a rival write
    invalidates the attempt, whose held-back commands are dropped, and
    [func] runs again. *)
Fixpoint attempts (func : M World unit) (watches : list string)
  (rivals : list (Redis.Store → Redis.Store)) (st : state World)
  : state World * result unit :=
  match func (set_pending [] (emit (Watch watches) st)) with
  | (st1, Raise e) => (set_pending [] st1, Raise e)
  | (st1, Ret _) =>
      match rivals with
      | [] =>
          (emit (Commit (pending st1))
             (set_pending []
                (set_db (foldl Redis.exec (db st1) (pending st1)) st1)),
           Ret tt)
      | write :: rivals' =>
          attempts func watches rivals'
            (set_pending [] (set_db (write (db st1)) st1))
      end
  end.

(** [self._redis.transaction(func, *watches)]: the rival writes that this
    transaction meets are the next entry of [contention]; none when
    nothing runs beside the poller. *)
Definition transaction (func : M World unit) (watches : list string)
  : M World unit := λ st,
  match contention st with
  | [] => attempts func watches [] st
  | rivals :: later => attempts func watches rivals (set_contention later st)
  end.

(** *** The methods *)

Definition call_ready_to_process (score member : value) : M World bool :=
  λ st,
  let (w, r) := ready_to_process self score member (world st) in
  (emit (Call "ready_to_process" [score; member]) (set_world w st), r).

Definition call_process (score member : value) : M World unit := λ st,
  let (w, r) := process self score member (world st) in
  (emit (Call "process" [score; member]) (set_world w st), r).

(** The function [_worker] of [dequeue]. *)
Definition dequeue_worker (method : string) : M World unit :=
  try_except
    (let* items := pipe_range method (_sorted_set_key self) 0 0 in
     let* item := lift (index_last items) in
     assign_next_item item ;;
     redis_zunionstore _snapshot_key [_sorted_set_key self] ;;
     log "info" "created snapshot %s from %s" ;;
     let* ni := next_item in
     let* ready := call_ready_to_process ni.2 ni.1 in
     if ready then
       let* ni := next_item in
       pipe_zrem (_sorted_set_key self) ni.1
     else
       assign_next_item (VNone, VNone))
    (λ e,
       match e with
       | IndexError =>
           (* sorted set doesn't exist yet; it's OK, ignore it *)
           log "info" "Polling queue doesn't exist"
       | _ =>
           if is_Exception e then log_traceback "error" e else raise e
       end).

Definition dequeue : M World (value * value) :=
  let method := if _reverse self then "zrevrange" else "zrange" in
  assign_next_item (VNone, VNone) ;;
  transaction (dequeue_worker method) [_sorted_set_key self; _snapshot_key] ;;
  let* ni := next_item in
  ret (ni.2, ni.1).

(** The function [_worker] of [enqueue]. *)
Definition enqueue_worker (score member : value) : M World unit :=
  pipe_zadd (_sorted_set_key self) score member.

Definition enqueue (score member : value) : M World unit :=
  transaction (enqueue_worker score member) [_sorted_set_key self].

(** One pass through the body of the [while True] of [_run]; the
    result is the value of [sleep_between_runs] for the next pass. *)
Definition _run_iteration (sleep_between_runs : bool) : M World bool :=
  (if sleep_between_runs then
     log "info" "sleeping for %s seconds" ;;
     tell Sleep
   else ret tt) ;;
  try_except
    (let* item := dequeue in
     let '(score, member) := item in
     let* sleep_between_runs :=
       (if is_not_None score then
          call_process score member ;;
          log "info" "removing item from snapshot" ;;
          redis_zrem _snapshot_key member ;;
          ret false
        else ret true) in
     assign_next_item (VNone, VNone) ;;
     ret sleep_between_runs)
    (λ exn,
       if is_Exception exn then
         let* message := lift (str exn) in
         log "error" "Error encountered when processing item: %s" ;;
         log_traceback "error" exn ;;
         log "warning"
           "Polling dequeue() or process() have not been executed" ;;
         ret true
       else raise exn).

(** The loop has no exit of its own: it ends with the exception that
    leaves it, or is still running when the fuel is spent ([None]). *)
Fixpoint _run_loop (fuel : nat) (sleep_between_runs : bool)
  (st : state World) : option (state World * exn) :=
  match fuel with
  | O => None
  | S fuel' =>
      match _run_iteration sleep_between_runs st with
      | (st', Ret sleep_between_runs') =>
          _run_loop fuel' sleep_between_runs' st'
      | (st', Raise e) => Some (st', e)
      end
  end.

Definition _run (fuel : nat) (st : state World)
  : option (state World * exn) :=
  match assign_next_item (VNone, VNone) st with
  | (st', _) => _run_loop fuel false st'
  end.

(** The recovery step at the head of [run]. *)
Definition run_recovery : M World unit :=
  let* snapshot_exists := redis_exists _snapshot_key in
  let* lost :=
    (if snapshot_exists then
       let* n := redis_zcard (_sorted_set_key self) in
       let* n' := redis_zcard _snapshot_key in
       ret (negb (n =? n')%nat)
     else ret false) in
  if lost then
    log "info" "some members were lost between runs. Replacing %s with %s" ;;
    redis_zunionstore (_sorted_set_key self) [_snapshot_key]
  else ret tt.

(** The handler of [KeyboardInterrupt] in [run]. *)
Definition run_interrupted : M World unit :=
  log "info" "received KeyboardInterrupt" ;;
  let* ni := next_item in
  if is_not_None ni.1 then
    let* ni := next_item in
    enqueue ni.2 ni.1 ;;
    log "info" "enqueued (%s, %s) while handling KeyboardInterrupt"
  else ret tt.

Definition run (fuel : nat) (st : state World)
  : option (state World * result unit) :=
  match (run_recovery ;;
         log "info" "starting polling loop for key: %s in Redis: %s") st with
  | (st1, Raise e) => Some (st1, Raise e)
  | (st1, Ret _) =>
      match _run fuel st1 with
      | None => None
      | Some (st2, KeyboardInterrupt) =>
          Some ((run_interrupted ;;
                 log "info" "ending polling loop for key: %s in Redis: %s")
                  st2)
      | Some (st2, e) => Some (st2, Raise e)
      end
  end.

(** *** Vocabulary of the properties *)

(** What [dequeue] reads: the entry of rank 0 from the end the poller is
    configured for (an empty list when the queue is empty or absent), and
    the command that reads it. *)
Definition peek (d : Redis.Store) : list Redis.item :=
  if _reverse self then Redis.zrevrange (_sorted_set_key self) 0 0 d
  else Redis.zrange (_sorted_set_key self) 0 0 d.

Definition peek_command : Redis.command :=
  if _reverse self then Redis.ZREVRANGE (_sorted_set_key self) 0 0
  else Redis.ZRANGE (_sorted_set_key self) 0 0.

(** The entries of a queue in the order the poller is configured to claim
    them in, and the order itself. *)
Definition claim_order (z : Redis.zset) : list Redis.item :=
  if _reverse self then reverse (Redis.ranked z) else Redis.ranked z.

Definition claim_le : relation Redis.item :=
  if _reverse self then flip Redis.item_le else Redis.item_le.

(** [enqueue] called once per element, then [dequeue] called [n] times,
    the results collected. *)
Fixpoint enqueue_all (items : list (Z * string)) : M World unit :=
  match items with
  | [] => ret tt
  | (score, member) :: items' =>
      enqueue (VNum score) (VStr member) ;;
      enqueue_all items'
  end.

Fixpoint dequeue_many (n : nat) : M World (list (value * value)) :=
  match n with
  | O => ret []
  | S n' =>
      let* r := dequeue in
      let* rs := dequeue_many n' in
      ret (r :: rs)
  end.

(** The queue after a sequence of add-or-update calls. *)
Definition enqueued (items : list (Z * string)) (z : Redis.zset)
  : Redis.zset :=
  foldl (λ acc i, <[i.2 := i.1]> acc) z items.

(** What [n] calls of [dequeue] return when they claim the entries of
    [order] one after the other and then find the queue empty. *)
Definition claims (order : list Redis.item) (n : nat)
  : list (value * value) :=
  ((λ i : Redis.item, (VNum i.2, VStr i.1)) <$> take n order)
    ++ replicate (n - length order) (VNone, VNone).

(** The state and the flag after [k] passes of the loop none of which
    was left by an exception. *)
Fixpoint _run_passes (k : nat) (sleep_between_runs : bool)
  (st : state World) : option (bool * state World) :=
  match k with
  | O => Some (sleep_between_runs, st)
  | S k' =>
      match _run_iteration sleep_between_runs st with
      | (st', Ret sleep_between_runs') =>
          _run_passes k' sleep_between_runs' st'
      | (_, Raise _) => None
      end
  end.

(** The state a pass of the loop starts to work in: after the sleep, when
    the flag asks for one. *)
Definition backoff (sleep_between_runs : bool) (st : state World)
  : state World :=
  if sleep_between_runs then
    emit Sleep (emit (Log "info" "sleeping for %s seconds") st)
  else st.

(** What the handler at the end of a pass adds when it catches [e]. *)
Definition contained (e : exn) (st : state World) : state World :=
  emit (Log "warning" "Polling dequeue() or process() have not been executed")
    (emit (LogTraceback "error" e)
       (emit (Log "error" "Error encountered when processing item: %s") st)).

(** What the [except Exception] clause at the end of a pass does with [e]
    in the state [st]: it formats [e], which may raise, before it logs. *)
Definition caught (e : exn) (st : state World) : state World * result bool :=
  if is_Exception e then
    match str e with
    | Ret _ => (contained e st, Ret true)
    | Raise e' => (st, Raise e')
    end
  else (st, Raise e).

(** The test of the recovery step. *)
Definition members_lost (d : Redis.Store) : bool :=
  Redis.exists_ _snapshot_key d
  && negb (Redis.zcard (_sorted_set_key self) d
           =? Redis.zcard _snapshot_key d)%nat.

(** The state the loop of [run] is entered in. *)
Definition loop_entry (st : state World) : state World :=
  (assign_next_item (VNone, VNone)
     ((run_recovery ;;
       log "info" "starting polling loop for key: %s in Redis: %s") st).1).1.

End methods.

(** The events that change the store. *)
Definition mutation (e : event) : bool :=
  match e with
  | Cmd _ (Redis.ZADD _ _ _ | Redis.ZREM _ _ | Redis.ZUNIONSTORE _ _) => true
  | Commit (_ :: _) => true
  | _ => false
  end.

(** An exception that can be formatted: its [__str__] returns. *)
Definition printable (e : exn) : Prop := ∃ message, str e = Ret message.

(** The two forms [_next_item] takes: empty, or the entry that was read. *)
Definition item_shape (ni : value * value) : Prop :=
  ni = (VNone, VNone) ∨ ∃ m s, ni = (VStr m, VNum s).

(** The entry the worker of [dequeue] logs when it swallows [e]. *)
Definition worker_log (e : exn) : event :=
  match e with
  | IndexError => Log "info" "Polling queue doesn't exist"
  | _ => LogTraceback "error" e
  end.

(** An additive merge of [snapshot] into [queue]: what a member of both, of
    the snapshot only, and of the queue only end with. *)
Definition additive_merge (queue snapshot merged : Redis.zset) : Prop :=
  ∀ m : string,
    merged !! m =
      match queue !! m, snapshot !! m with
      | Some a, Some b => Some (a + b)
      | None, Some b => Some b
      | Some a, None => Some a
      | None, None => None
      end.

End Poller.

(** ** Concrete pollers and stores *)

Module Examples.
Import Py Poller.

Definition accept {World : Type}
  : value → value → World → World * result bool :=
  λ _ _ w, (w, Ret true).

Definition succeed {World : Type}
  : value → value → World → World * result unit :=
  λ _ _ w, (w, Ret tt).

(** A predicate that tells the two orders of its arguments apart: it
    accepts when the score comes first and the member second. *)
Definition score_first : value → value → unit → unit * result bool :=
  λ a b w,
    (w, Ret match a, b with VNum _, VStr _ => true | _, _ => false end).

Definition predicate_raising (e : exn)
  : value → value → unit → unit * result bool :=
  λ _ _ w, (w, Raise e).

Definition process_raising (e : exn)
  : value → value → unit → unit * result unit :=
  λ _ _ w, (w, Raise e).

(** A work function that counts its calls and is interrupted during the
    second one. *)
Definition interrupted_second : value → value → nat → nat * result unit :=
  λ _ _ calls,
    (S calls, if (calls =? 1)%nat then Raise KeyboardInterrupt else Ret tt).

(** The poller on key ["q"]. *)
Definition poller_q {World : Type} (reverse : bool)
  (ready : value → value → World → World * result bool)
  (work : value → value → World → World * result unit) : poller World :=
  {| _sorted_set_key := "q"; _reverse := reverse;
     ready_to_process := ready; process := work |}.

(** A state with nothing in flight, no rival and an empty trace. *)
Definition start {World : Type} (w : World) (d : Redis.Store) : state World :=
  State d (VNone, VNone) [] [] w [].

Definition queue_y : Redis.Store := {[ "q" := {[ "y" := 1 ]} ]}.

(** The queue [{y: 1}] and a producer whose [zadd] of [z] invalidates the
    first attempt of the next transaction. *)
Definition raced : state unit :=
  State queue_y (VNone, VNone) [] [[Redis.zadd "q" 0 "z"]] tt [].

Definition is_commit (e : event) : bool :=
  match e with Commit _ => true | _ => false end.

Definition queue_xy : Redis.Store := {[ "q" := {[ "x" := 5; "y" := 1 ]} ]}.

(** A queue and a snapshot of different sizes that share a member. *)
Definition diverged : Redis.Store :=
  {[ "q" := {[ "a" := 1; "b" := 2 ]}; "q-snapshot" := {[ "a" := 5 ]} ]}.

End Examples.

(** ** Logging *)

Module Logging.
Import Py.

Section log.
Context {World : Type}.

(** A method of a logger: it takes the message and returns or raises. *)
Definition logger_method : Type := string → World → World * result unit.

(** A logger, seen through [getattr(logger, level)]: no such attribute
    ([None]), an attribute that is false in a test, as [None] is
    ([Some None]), or a method. *)
Definition logger : Type := string → option (option logger_method).

(** [log(self, level, message)], for an instance whose attribute [logger]
    is the constructor's argument ([None] by default). *)
Definition log (self_logger : option logger) (level message : string)
  : World → World * result unit := λ w,
  let body : World * result unit :=
    match self_logger with
    | None => (w, Ret tt)
    | Some logger =>
        match logger level with
        | None => (w, Ret tt)
        | Some None => (w, Ret tt)
        | Some (Some logger_method) => logger_method message w
        end
    end in
  match body with
  | (w', Ret _) => (w', Ret tt)
  | (w', Raise _) => (w', Ret tt)
  end.

End log.
Global Arguments logger_method : clear implicits.
Global Arguments logger : clear implicits.

End Logging.

(** ** The class as it is, with neither method overridden *)

Module BaseClass.
Import Py Poller.

(** [NotImplementedError], a subclass of [Exception]. *)
Definition NotImplementedError : exn := UserError "NotImplementedError".

(** [RedisSortedSetQueuePoller(redis_client, redis_key, reverse)]: both
    [ready_to_process] and [process] raise [NotImplementedError]. *)
Definition base {World : Type} (redis_key : string) (reverse : bool)
  : poller World :=
  {| _sorted_set_key := redis_key;
     _reverse := reverse;
     ready_to_process := λ _ _ w, (w, Raise NotImplementedError);
     process := λ _ _ w, (w, Raise NotImplementedError) |}.

End BaseClass.

(** ** What a trace tells *)

Module Observations.
Import Py.

(** The calls of [process], in order, with their arguments. *)
Definition process_call (e : event) : option (value * value) :=
  match e with
  | Call method [score; member] =>
      if String.eqb method "process" then Some (score, member) else None
  | _ => None
  end.

Definition processed (tr : list event) : list (value * value) :=
  omap process_call tr.

(** The number of sleeps. *)
Definition is_sleep (e : event) : bool :=
  match e with Sleep => true | _ => false end.

Definition sleeps (tr : list event) : nat :=
  length (filter is_sleep tr).

(** The writes sent to the store, on the client or at a commit. *)
Definition writes (tr : list event) : list event :=
  filter Poller.mutation tr.

End Observations.

(** ** More stores and states *)

Module Scenarios.
Import Py Poller Examples.

(** The queue [{y: 1}] and a rival worker whose removal of [y] invalidates
    the first attempt of the next transaction. *)
Definition outrun : state unit :=
  State queue_y (VNone, VNone) [] [[Redis.zrem "q" "y"]] tt [].

(** A queue and a snapshot of the same size and of different members. *)
Definition same_size : Redis.Store :=
  {[ "q" := {[ "a" := 1 ]}; "q-snapshot" := {[ "b" := 2 ]} ]}.

(** Callbacks on a world that counts the calls of [process]: a predicate
    that raises, a work function that returns, and two that raise an
    [Exception] at their first call and, at the later ones, [SystemExit]
    for the one and [KeyboardInterrupt] for the other. *)
Definition refusing (e : exn) : value → value → nat → nat * result bool :=
  λ _ _ calls, (calls, Raise e).

Definition counted : value → value → nat → nat * result unit :=
  λ _ _ calls, (S calls, Ret tt).

Definition fails_then_exits : value → value → nat → nat * result unit :=
  λ _ _ calls,
    (S calls,
     if (calls =? 0)%nat then Raise (UserError "boom") else Raise SystemExit).

Definition fails_then_interrupted
  : value → value → nat → nat * result unit :=
  λ _ _ calls,
    (S calls,
     if (calls =? 0)%nat then Raise (UserError "boom")
     else Raise KeyboardInterrupt).

End Scenarios.

(** * Properties *)

(** ** The store *)

Module RedisFacts.
Import Redis.

(** *** The order is a total order on entries *)

Lemma ascii_compare_N (x y : ascii) :
  Ascii.compare x y = N.compare (N_of_ascii x) (N_of_ascii y).
Proof. reflexivity. Qed.

Lemma string_leb_trans (a b c : string) :
  String.leb a b = true → String.leb b c = true → String.leb a c = true.
Proof.
  unfold String.leb. revert b c.
  induction a as [|x a IH]; intros [|y b] [|z c]; simpl; try done.
  rewrite !ascii_compare_N.
  destruct (N.compare_spec (N_of_ascii x) (N_of_ascii y)) as [Hxy|Hxy|Hxy];
    destruct (N.compare_spec (N_of_ascii y) (N_of_ascii z)) as [Hyz|Hyz|Hyz];
    destruct (N.compare_spec (N_of_ascii x) (N_of_ascii z)) as [Hxz|Hxz|Hxz];
    try done; try lia.
  apply IH.
Qed.

Global Instance item_le_total : Total item_le.
Proof.
  intros [m1 s1] [m2 s2]. unfold item_le. simpl.
  destruct (Z.lt_trichotomy s1 s2) as [?|[->|?]]; [by left; left| |by right; left].
  destruct (String.leb_total m1 m2); [left|right]; by right.
Qed.

Global Instance item_le_trans : Transitive item_le.
Proof.
  intros [m1 s1] [m2 s2] [m3 s3]. unfold item_le. simpl.
  intros [?|[-> H12]] [?|[-> H23]]; [left; lia ..|].
  right. split; [done|]. by eapply string_leb_trans.
Qed.

Global Instance item_le_antisym : AntiSymm (=) item_le.
Proof.
  intros [m1 s1] [m2 s2]. unfold item_le. simpl.
  intros [?|[-> H12]] [?|[? H21]]; try lia.
  f_equal. by apply String.leb_antisym.
Qed.

(** *** Ranking *)

Lemma ranked_sorted (z : zset) : Sorted item_le (ranked z).
Proof. apply (Sorted_merge_sort item_le). Qed.

Lemma ranked_perm (z : zset) : ranked z ≡ₚ map_to_list z.
Proof. apply merge_sort_Permutation. Qed.

Lemma elem_of_ranked (z : zset) (m : string) (s : Z) :
  (m, s) ∈ ranked z ↔ z !! m = Some s.
Proof. rewrite ranked_perm. apply elem_of_map_to_list. Qed.

Lemma ranked_empty : ranked ∅ = [].
Proof. unfold ranked. by rewrite map_to_list_empty. Qed.

Lemma ranked_nil (z : zset) : ranked z = [] → z = ∅.
Proof.
  intros H. apply map_to_list_empty_iff, Permutation_nil_r.
  by rewrite <- ranked_perm, H.
Qed.

(** Removing a member leaves the other entries in their order: whenever
    the ranking splits around the entry of [m], the ranking of the set
    without [m] is what remains. *)
Lemma ranked_delete (z : zset) (m : string) (s : Z) (l1 l2 : list item) :
  ranked z = l1 ++ (m, s) :: l2 →
  ranked (delete m z) = l1 ++ l2.
Proof.
  intros Hr.
  assert (Hin : z !! m = Some s).
  { apply elem_of_ranked. rewrite Hr. set_solver. }
  apply (Sorted_unique item_le).
  - apply ranked_sorted.
  - pose proof (ranked_sorted z) as Hs. rewrite Hr in Hs.
    apply (Sorted_StronglySorted item_le) in Hs.
    apply StronglySorted_Sorted.
    apply StronglySorted_app in Hs as (H12 & Hs1 & Hs2).
    apply StronglySorted_cons in Hs2 as [_ Hs2].
    apply StronglySorted_app. split_and!; [|done..].
    intros x1 x2 H1 H2. apply H12; [done|]. by right.
  - rewrite ranked_perm.
    apply (Permutation_cons_inv (a := (m, s))).
    rewrite map_to_list_delete by done.
    rewrite <- ranked_perm, Hr. by rewrite Permutation_middle.
Qed.

(** *** Reading the store after a command *)

Lemma zset_at_put (k k' : string) (z : zset) (db : Store) :
  zset_at k' (put k z db) = if decide (k = k') then z else zset_at k' db.
Proof.
  unfold zset_at, put. case_bool_decide as Hz; case_decide as Hk; subst.
  - by rewrite lookup_delete_eq.
  - by rewrite lookup_delete_ne.
  - by rewrite lookup_insert_eq.
  - by rewrite lookup_insert_ne.
Qed.

Lemma zunion_empty_l (z : zset) : zunion ∅ z = z.
Proof. unfold zunion. apply (left_id_L ∅ _). Qed.

Lemma zset_at_zunionstore (dest src k : string) (db : Store) :
  zset_at k (zunionstore dest [src] db)
  = if decide (dest = k) then zset_at src db else zset_at k db.
Proof. unfold zunionstore. simpl. by rewrite zset_at_put, zunion_empty_l. Qed.

Lemma zset_at_zrem (key k m : string) (db : Store) :
  zset_at k (zrem key m db)
  = if decide (key = k) then delete m (zset_at key db) else zset_at k db.
Proof. unfold zrem. by rewrite zset_at_put. Qed.

Lemma zset_at_zadd (key k m : string) (s : Z) (db : Store) :
  zset_at k (zadd key s m db)
  = if decide (key = k) then <[m := s]> (zset_at key db) else zset_at k db.
Proof.
  unfold zadd, zset_at. case_decide; subst.
  - by rewrite lookup_insert_eq.
  - by rewrite lookup_insert_ne.
Qed.

Lemma slice_head {A} (l : list A) : slice 0 0 l = take 1 l.
Proof. unfold slice. simpl. by rewrite drop_0. Qed.

Lemma zunion_lookup (z1 z2 : zset) (m : string) :
  zunion z1 z2 !! m =
    match z1 !! m, z2 !! m with
    | Some a, Some b => Some (a + b)
    | Some a, None => Some a
    | None, Some b => Some b
    | None, None => None
    end.
Proof. unfold zunion. rewrite lookup_union_with. by destruct (z1 !! m), (z2 !! m). Qed.

Lemma zset_at_zunionstore_eq (dest src : string) (db : Store) :
  zset_at dest (zunionstore dest [src] db) = zset_at src db.
Proof. rewrite zset_at_zunionstore. by rewrite decide_True. Qed.

Lemma zset_at_zunionstore_ne (dest src k : string) (db : Store) :
  dest ≠ k → zset_at k (zunionstore dest [src] db) = zset_at k db.
Proof. intros. rewrite zset_at_zunionstore. by rewrite decide_False. Qed.

Lemma zset_at_zrem_eq (key m : string) (db : Store) :
  zset_at key (zrem key m db) = delete m (zset_at key db).
Proof. rewrite zset_at_zrem. by rewrite decide_True. Qed.

Lemma zset_at_zrem_ne (key k m : string) (db : Store) :
  key ≠ k → zset_at k (zrem key m db) = zset_at k db.
Proof. intros. rewrite zset_at_zrem. by rewrite decide_False. Qed.

Lemma zset_at_zadd_eq (key m : string) (s : Z) (db : Store) :
  zset_at key (zadd key s m db) = <[m := s]> (zset_at key db).
Proof. rewrite zset_at_zadd. by rewrite decide_True. Qed.

Lemma zset_at_zadd_ne (key k m : string) (s : Z) (db : Store) :
  key ≠ k → zset_at k (zadd key s m db) = zset_at k db.
Proof. intros. rewrite zset_at_zadd. by rewrite decide_False. Qed.

End RedisFacts.

(** ** The poller *)

Module PollerFacts.
Import Redis RedisFacts Py Poller.

Lemma string_length_app (a b : string) :
  String.length (a +:+ b) = (String.length a + String.length b)%nat.
Proof. induction a as [|c a IH]; simpl; [done|]. by rewrite IH. Qed.

Ltac decide_now := apply (bool_decide_unpack _); vm_compute; exact I.

Ltac norm_state :=
  cbv [emit set_pending set_db set_world set_contention];
  cbn [db _next_item pending contention world trace fst snd is_Exception exec];
  rewrite <- ?app_assoc; cbn [app].

Section facts.
Context {World : Type}.
Variable self : poller World.

Local Abbreviation Q := (_sorted_set_key self).
Local Abbreviation S' := (_snapshot_key self).

Lemma snapshot_key_ne : S' ≠ Q.
Proof.
  unfold _snapshot_key. intros H. apply (f_equal String.length) in H.
  rewrite string_length_app in H. simpl in H. lia.
Qed.

Lemma queue_key_ne : Q ≠ S'.
Proof. apply not_eq_sym, snapshot_key_ne. Qed.

Lemma pipe_range_method (key : string) (a b : nat) (st : state World) :
  pipe_range (if _reverse self then "zrevrange" else "zrange") key a b st
  = (emit (Cmd Pipe (if _reverse self then ZREVRANGE key a b
                     else ZRANGE key a b)) st,
     Ret (with_scores <$> (if _reverse self then zrevrange key a b (db st)
                           else zrange key a b (db st)))).
Proof. unfold pipe_range. by destruct (_reverse self). Qed.

Lemma dequeue_empty d ni pe w tr :
  peek self d = [] →
  dequeue self (State d ni pe [] w tr)
  = (State d (VNone, VNone) [] [] w
       (tr ++ [Watch [Q; S']; Cmd Pipe (peek_command self);
               Log "info" "Polling queue doesn't exist"; Commit []]),
     Ret (VNone, VNone)).
Proof.
  intros Hp. unfold dequeue, dequeue_worker.
  cbv [bind transaction attempts try_except assign_next_item next_item ret].
  cbn [contention].
  rewrite pipe_range_method.
  cbn [db emit set_pending].
  unfold peek in Hp. rewrite Hp. cbn.
  unfold peek_command. norm_state. reflexivity.
Qed.

(** The peeked entry, the store once the snapshot is taken, and the trace
    up to the call of the predicate. *)
Lemma dequeue_worker_item method d ni pe co w tr m s :
  method = (if _reverse self then "zrevrange" else "zrange") →
  peek self d = [(m, s)] →
  dequeue_worker self method (State d ni pe co w tr)
  = let d1 := zunionstore S' [Q] d in
    let tr1 := tr ++ [Cmd Pipe (peek_command self);
                      Cmd Client (ZUNIONSTORE S' [Q]);
                      Log "info" "created snapshot %s from %s";
                      Call "ready_to_process" [VNum s; VStr m]] in
    match ready_to_process self (VNum s) (VStr m) w with
    | (w', Ret true) =>
        (State d1 (VStr m, VNum s) (pe ++ [ZREM Q m]) co w'
           (tr1 ++ [Cmd Pipe (ZREM Q m)]), Ret tt)
    | (w', Ret false) =>
        (State d1 (VNone, VNone) pe co w' tr1, Ret tt)
    | (w', Raise e) =>
        if is_Exception e then
          (State d1 (VStr m, VNum s) pe co w' (tr1 ++ [worker_log e]), Ret tt)
        else (State d1 (VStr m, VNum s) pe co w' tr1, Raise e)
    end.
Proof.
  intros -> Hp. unfold dequeue_worker.
  cbv [bind try_except assign_next_item next_item ret lift].
  rewrite pipe_range_method. cbn [db emit].
  unfold peek in Hp. rewrite Hp. cbn [fmap list_fmap index_last last].
  change (with_scores (m, s)) with (VStr m, VNum s).
  cbv [redis_zunionstore redis_command log tell call_ready_to_process].
  norm_state.
  destruct (ready_to_process self (VNum s) (VStr m) w) as [w' [[|]|e]].
  - cbv [pipe_zrem bind lift as_member pipe_command]. norm_state.
    unfold peek_command. done.
  - norm_state. done.
  - destruct e; norm_state; cbv [log log_traceback tell raise]; norm_state;
      done.
Qed.

Lemma dequeue_item d ni pe w tr m s :
  peek self d = [(m, s)] →
  dequeue self (State d ni pe [] w tr)
  = let d1 := zunionstore S' [Q] d in
    let tr1 := tr ++ [Watch [Q; S']; Cmd Pipe (peek_command self);
                      Cmd Client (ZUNIONSTORE S' [Q]);
                      Log "info" "created snapshot %s from %s";
                      Call "ready_to_process" [VNum s; VStr m]] in
    match ready_to_process self (VNum s) (VStr m) w with
    | (w', Ret true) =>
        (State (zrem Q m d1) (VStr m, VNum s) [] [] w'
           (tr1 ++ [Cmd Pipe (ZREM Q m); Commit [ZREM Q m]]),
         Ret (VNum s, VStr m))
    | (w', Ret false) =>
        (State d1 (VNone, VNone) [] [] w' (tr1 ++ [Commit []]),
         Ret (VNone, VNone))
    | (w', Raise e) =>
        if is_Exception e then
          (State d1 (VStr m, VNum s) [] [] w'
             (tr1 ++ [worker_log e; Commit []]),
           Ret (VNum s, VStr m))
        else (State d1 (VStr m, VNum s) [] [] w' tr1, Raise e)
    end.
Proof.
  intros Hp. unfold dequeue.
  cbv [bind transaction attempts assign_next_item next_item ret].
  norm_state.
  rewrite (dequeue_worker_item _ _ _ _ _ _ _ m s eq_refl Hp).
  cbv zeta.
  destruct (ready_to_process self (VNum s) (VStr m) w) as [w' [[|]|e]];
    [| |destruct (is_Exception e)]; norm_state; reflexivity.
Qed.

(** One pass of the loop, in terms of what [dequeue] and [process] do. *)
Lemma _run_iteration_unfold sleep st :
  _run_iteration self sleep st
  = match dequeue self (backoff sleep st) with
    | (st1, Ret (score, member)) =>
        if is_not_None score then
          match process self score member (world st1) with
          | (w, Ret _) =>
              let st2 := emit (Log "info" "removing item from snapshot")
                           (emit (Call "process" [score; member])
                              (set_world w st1)) in
              match member with
              | VStr m =>
                  (State (zrem S' m (db st2)) (VNone, VNone) (pending st2)
                     (contention st2) (world st2)
                     (trace st2 ++ [Cmd Client (ZREM S' m)]), Ret false)
              | _ => (contained DataError st2, Ret true)
              end
          | (w, Raise e) =>
              caught e (emit (Call "process" [score; member])
                          (set_world w st1))
          end
        else
          (State (db st1) (VNone, VNone) (pending st1) (contention st1)
             (world st1) (trace st1), Ret true)
    | (st1, Raise e) => caught e st1
    end.
Proof.
  unfold _run_iteration.
  destruct sleep; cbv [bind try_except log tell ret backoff].
  all: match goal with
       | |- context [dequeue self ?x] =>
           destruct (dequeue self x) as [st1 [[score member]|e]]
       end.
  all: rewrite ?app_nil_r.
  all: try (unfold caught; destruct (is_Exception e); [|reflexivity];
            cbv [lift]; destruct (str e); reflexivity).
  all: destruct (is_not_None score); [|reflexivity].
  all: cbv [call_process];
    destruct (process self score member (world st1)) as [w [[]|e]];
    [|unfold caught; destruct (is_Exception e); [|reflexivity];
      cbv [lift]; destruct (str e); reflexivity].
  all: cbv [log tell redis_zrem bind lift as_member];
    destruct member; reflexivity.
Qed.

Lemma peek_claim_order d :
  peek self d = take 1 (claim_order self (zset_at Q d)).
Proof.
  unfold peek, claim_order, zrange, zrevrange.
  destruct (_reverse self); by rewrite slice_head.
Qed.

Lemma peek_cases d : peek self d = [] ∨ ∃ m s, peek self d = [(m, s)].
Proof.
  rewrite peek_claim_order.
  destruct (claim_order self (zset_at Q d)) as [|[m s] l]; [by left|].
  right. exists m, s. simpl. by rewrite take_0.
Qed.

Lemma claim_order_nil z : claim_order self z = [] ↔ z = ∅.
Proof.
  unfold claim_order. split.
  - intros H. apply ranked_nil. destruct (_reverse self); [|done].
    apply (f_equal reverse) in H. by rewrite reverse_involutive in H.
  - intros ->. rewrite ranked_empty. by destruct (_reverse self).
Qed.

Lemma peek_nil d : peek self d = [] ↔ zset_at Q d = ∅.
Proof.
  rewrite peek_claim_order, <- claim_order_nil.
  destruct (claim_order self (zset_at Q d)); [done|]. simpl. by rewrite take_0.
Qed.

Lemma elem_of_claim_order z m s :
  (m, s) ∈ claim_order self z ↔ z !! m = Some s.
Proof.
  unfold claim_order. destruct (_reverse self);
    by rewrite ?elem_of_reverse, elem_of_ranked.
Qed.

Lemma peek_lookup d m s : peek self d = [(m, s)] → zset_at Q d !! m = Some s.
Proof.
  rewrite peek_claim_order. intros H. apply elem_of_claim_order.
  destruct (claim_order self (zset_at Q d)) as [|i l]; [done|].
  simpl in H. rewrite take_0 in H. injection H as ->. set_solver.
Qed.

(** Claiming the entry at the head of the order leaves the rest of it. *)
Lemma claim_order_delete z m s l :
  claim_order self z = (m, s) :: l → claim_order self (delete m z) = l.
Proof.
  unfold claim_order. destruct (_reverse self); intros H.
  - apply (f_equal reverse) in H.
    rewrite reverse_involutive, reverse_cons in H.
    rewrite (ranked_delete z m s (reverse l) []) by done.
    by rewrite app_nil_r, reverse_involutive.
  - by rewrite (ranked_delete z m s [] l).
Qed.

Lemma claim_order_sorted z : Sorted (claim_le self) (claim_order self z).
Proof.
  unfold claim_le, claim_order. destruct (_reverse self).
  - apply Sorted_reverse. apply ranked_sorted.
  - apply ranked_sorted.
Qed.

Lemma claim_order_perm z : claim_order self z ≡ₚ map_to_list z.
Proof.
  unfold claim_order. destruct (_reverse self);
    by rewrite ?reverse_Permutation, ranked_perm.
Qed.

Lemma enqueue_seq d ni pe w tr s m :
  enqueue self (VNum s) (VStr m) (State d ni pe [] w tr)
  = (State (zadd Q s m d) ni [] [] w
       (tr ++ [Watch [Q]; Cmd Pipe (ZADD Q s m); Commit [ZADD Q s m]]),
     Ret tt).
Proof.
  unfold enqueue, enqueue_worker.
  cbv [transaction attempts pipe_zadd pipe_command bind lift as_score
       as_member].
  norm_state. reflexivity.
Qed.

Lemma run_recovery_unfold d ni pe co w tr :
  run_recovery self (State d ni pe co w tr)
  = if members_lost self d then
      (State (zunionstore Q [S'] d) ni pe co w
         (tr ++ [Cmd Client (EXISTS S'); Cmd Client (ZCARD Q);
                 Cmd Client (ZCARD S');
                 Log "info"
                   "some members were lost between runs. Replacing %s with %s";
                 Cmd Client (ZUNIONSTORE Q [S'])]), Ret tt)
    else
      (State d ni pe co w
         (tr ++ Cmd Client (EXISTS S')
             :: if exists_ S' d
                then [Cmd Client (ZCARD Q); Cmd Client (ZCARD S')] else []),
       Ret tt).
Proof.
  unfold run_recovery, members_lost.
  cbv [bind ret log tell redis_exists redis_zcard redis_zunionstore
       redis_command].
  norm_state.
  destruct (exists_ S' d); [|done].
  norm_state. cbn [andb].
  destruct (negb _); norm_state; reflexivity.
Qed.

Lemma members_lost_recovered d :
  members_lost self (zunionstore Q [S'] d) = false.
Proof.
  unfold members_lost, zcard.
  rewrite !zset_at_zunionstore.
  rewrite decide_True by done.
  rewrite decide_False by (apply not_eq_sym, snapshot_key_ne).
  rewrite Nat.eqb_refl. simpl. apply andb_false_r.
Qed.

Lemma dequeue_worker_empty method d ni pe co w tr :
  method = (if _reverse self then "zrevrange" else "zrange") →
  peek self d = [] →
  dequeue_worker self method (State d ni pe co w tr)
  = (State d ni pe co w
       (tr ++ [Cmd Pipe (peek_command self);
               Log "info" "Polling queue doesn't exist"]), Ret tt).
Proof.
  intros -> Hp. unfold dequeue_worker.
  cbv [bind try_except assign_next_item next_item ret lift].
  rewrite pipe_range_method. cbn [db emit].
  unfold peek in Hp. rewrite Hp. cbn [fmap list_fmap index_last last].
  cbv [log tell]. unfold peek_command. norm_state. reflexivity.
Qed.

(** Whatever the contention, the worker leaves [_next_item] empty or
    holding an entry, and lets no [Exception] out. *)
Lemma dequeue_worker_shape method st :
  method = (if _reverse self then "zrevrange" else "zrange") →
  item_shape (_next_item st) →
  item_shape (_next_item (dequeue_worker self method st).1)
  ∧ ∀ e, (dequeue_worker self method st).2 = Raise e →
         is_Exception e = false.
Proof.
  intros Hm Hs. destruct st as [d ni pe co w tr]. cbn [_next_item] in Hs.
  destruct (peek_cases d) as [Hp|(m & s & Hp)].
  - rewrite (dequeue_worker_empty _ _ _ _ _ _ _ Hm Hp). by split.
  - rewrite (dequeue_worker_item _ _ _ _ _ _ _ m s Hm Hp). cbv zeta.
    destruct (ready_to_process self (VNum s) (VStr m) w) as [w' [[|]|e]];
      [| |destruct (is_Exception e) eqn:He]; cbn [fst snd _next_item];
      (split; [unfold item_shape; eauto|]); try done.
    by intros ? [= <-].
Qed.

Lemma attempts_shape method watches rivals st :
  method = (if _reverse self then "zrevrange" else "zrange") →
  item_shape (_next_item st) →
  let r := attempts (dequeue_worker self method) watches rivals st in
  item_shape (_next_item r.1)
  ∧ ∀ e, r.2 = Raise e → is_Exception e = false.
Proof.
  intros Hm. revert st. induction rivals as [|write rivals IH]; intros st Hs.
  all: cbn [attempts].
  all: destruct (dequeue_worker_shape method
                   (set_pending [] (emit (Watch watches) st)) Hm Hs) as [H1 H2].
  all: destruct (dequeue_worker self method _) as [st1 [[]|e]];
    cbn [fst snd] in *; [|split; [done|intros ? [= <-]; by apply H2]].
  - by split.
  - apply IH. done.
Qed.

Lemma dequeue_shape st :
  match dequeue self st with
  | (st1, Ret r) => _next_item st1 = (r.2, r.1) ∧ item_shape (_next_item st1)
  | (st1, Raise e) => is_Exception e = false
  end.
Proof.
  unfold dequeue. cbv [bind assign_next_item next_item ret transaction].
  set (st0 := State _ _ _ _ _ _).
  assert (Hs : item_shape (_next_item st0)) by (by left).
  assert (Hs' : ∀ c, item_shape (_next_item (set_contention c st0)))
    by (by left).
  destruct (contention st0) as [|rivals later].
  - destruct (attempts_shape _ [Q; S'] [] st0 eq_refl Hs) as [H1 H2].
    destruct (attempts _ _ _ _) as [st1 [[]|e]]; cbn [fst snd] in *;
      [|by apply H2].
    split; [by destruct (_next_item st1)|done].
  - destruct (attempts_shape _ [Q; S'] rivals _ eq_refl (Hs' later)) as [H1 H2].
    destruct (attempts _ _ _ _) as [st1 [[]|e]]; cbn [fst snd] in *;
      [|by apply H2].
    split; [by destruct (_next_item st1)|done].
Qed.

End facts.

Ltac keys_differ := apply snapshot_key_ne || apply queue_key_ne.

(** Reads of the queue and of the snapshot through the commands that were
    run on the store. *)
Ltac read_store :=
  repeat first
    [ rewrite zset_at_zunionstore_eq
    | rewrite zset_at_zrem_eq
    | rewrite zset_at_zadd_eq
    | rewrite zset_at_zunionstore_ne by keys_differ
    | rewrite zset_at_zrem_ne by keys_differ
    | rewrite zset_at_zadd_ne by keys_differ ].

Section calls.
Context {World : Type}.
Variable self : poller World.
Local Abbreviation Q := (_sorted_set_key self).
Local Abbreviation S' := (_snapshot_key self).

(** With no rival, a [dequeue] that returns an entry has read it from the
    queue and left it in the snapshot. *)
Lemma dequeue_claimed_inv st st1 s m :
  contention st = [] →
  dequeue self st = (st1, Ret (VNum s, VStr m)) →
  contention st1 = []
  ∧ _next_item st1 = (VStr m, VNum s)
  ∧ zset_at Q (db st) !! m = Some s
  ∧ zset_at S' (db st1) = zset_at Q (db st).
Proof.
  intros Hc Hd. destruct st as [d ni pe co w tr]. simpl in *. subst co.
  destruct (peek_cases self d) as [Hp|(m' & s' & Hp)].
  - by rewrite (dequeue_empty self _ _ _ _ _ Hp) in Hd.
  - pose proof (peek_lookup self _ _ _ Hp) as Hl.
    rewrite (dequeue_item self _ _ _ _ _ _ _ Hp) in Hd. cbv zeta in Hd.
    destruct (ready_to_process self (VNum s') (VStr m') w) as [w' [[|]|e]];
      [| |destruct (is_Exception e)]; try done.
    all: injection Hd as <- <- <-; cbn [contention _next_item db].
    all: read_store; done.
Qed.

Lemma _run_loop_passes k n sleep st sleep' st' :
  _run_passes self k sleep st = Some (sleep', st') →
  _run_loop self (k + n) sleep st = _run_loop self n sleep' st'.
Proof.
  revert sleep st. induction k as [|k IH]; intros sleep st; cbn.
  - by intros [= -> ->].
  - destruct (_run_iteration self sleep st) as [st1 [b|e]]; [|done].
    apply IH.
Qed.

Lemma run_unfold fuel st :
  run self fuel st
  = match _run_loop self fuel false (loop_entry self st) with
    | None => None
    | Some (st2, KeyboardInterrupt) =>
        Some ((run_interrupted self ;;
               log "info" "ending polling loop for key: %s in Redis: %s") st2)
    | Some (st2, e) => Some (st2, Raise e)
    end.
Proof.
  unfold run, loop_entry, _run. cbv [bind].
  destruct st as [d ni pe co w tr]. rewrite run_recovery_unfold.
  by destruct (members_lost self d).
Qed.

Lemma run_interrupted_requeue d pe w tr s m :
  (run_interrupted self ;;
   log "info" "ending polling loop for key: %s in Redis: %s")
    (State d (VStr m, VNum s) pe [] w tr)
  = (State (zadd Q s m d) (VStr m, VNum s) [] [] w
       (tr ++ [Log "info" "received KeyboardInterrupt";
               Watch [Q]; Cmd Pipe (ZADD Q s m); Commit [ZADD Q s m];
               Log "info" "enqueued (%s, %s) while handling KeyboardInterrupt";
               Log "info" "ending polling loop for key: %s in Redis: %s"]),
     Ret tt).
Proof.
  unfold run_interrupted. cbv [bind log tell next_item]. norm_state.
  cbn [is_not_None _next_item fst snd]. rewrite enqueue_seq. norm_state.
  reflexivity.
Qed.

Lemma enqueue_all_seq items d ni pe w tr :
  ∃ d' pe' tr',
    enqueue_all self items (State d ni pe [] w tr)
    = (State d' ni pe' [] w tr', Ret tt)
    ∧ zset_at Q d' = enqueued items (zset_at Q d).
Proof.
  revert d pe tr. induction items as [|[s m] items IH]; intros d pe tr.
  - by eexists _, _, _.
  - cbn [enqueue_all]. cbv [bind]. rewrite enqueue_seq.
    destruct (IH (zadd Q s m d) [] (tr ++ [Watch [Q]; Cmd Pipe (ZADD Q s m);
                                           Commit [ZADD Q s m]]))
      as (d' & pe' & tr' & -> & Hq).
    eexists _, _, _. split; [done|]. rewrite Hq. by read_store.
Qed.

Lemma claims_nil n : claims [] n = replicate n (VNone, VNone).
Proof. unfold claims. rewrite take_nil. simpl. by rewrite Nat.sub_0_r. Qed.

Lemma claims_cons m s l n :
  claims ((m, s) :: l) (S n) = (VNum s, VStr m) :: claims l n.
Proof. reflexivity. Qed.

Lemma dequeue_many_seq n d ni pe w tr :
  (∀ score member w, (ready_to_process self score member w).2 = Ret true) →
  (dequeue_many self n (State d ni pe [] w tr)).2
  = Ret (claims (claim_order self (zset_at Q d)) n).
Proof.
  intros Hready. revert d ni pe w tr.
  induction n as [|n IH]; intros d ni pe w tr; [done|].
  cbn [dequeue_many]. cbv [bind].
  pose proof (peek_claim_order self d) as Hp.
  destruct (claim_order self (zset_at Q d)) as [|[m s] l] eqn:Ho.
  - rewrite (dequeue_empty self _ _ _ _ _ Hp).
    specialize (IH d (VNone, VNone) [] w
      (tr ++ [Watch [Q; S']; Cmd Pipe (peek_command self);
              Log "info" "Polling queue doesn't exist"; Commit []])).
    destruct (dequeue_many self n _) as [st' r]. simpl in IH. subst r.
    rewrite Ho, !claims_nil. done.
  - simpl in Hp. rewrite take_0 in Hp.
    rewrite (dequeue_item self _ _ _ _ _ _ _ Hp). cbv zeta.
    specialize (Hready (VNum s) (VStr m) w).
    destruct (ready_to_process self (VNum s) (VStr m) w) as [w' r].
    simpl in Hready. subst r.
    match goal with |- context [dequeue_many self n ?st] =>
      specialize (IH (db st) (_next_item st) (pending st) (world st)
                    (trace st));
      change (State (db st) (_next_item st) (pending st) [] (world st)
                (trace st)) with st in IH;
      destruct (dequeue_many self n st) as [st' r] end.
    simpl in IH. subst r. cbn [snd db]. read_store.
    by rewrite (claim_order_delete self _ _ _ _ Ho), claims_cons.
Qed.
End calls.

(** The trace only grows. *)
Section traces.
Context {World : Type}.
Variable self : poller World.

Local Abbreviation Q := (_sorted_set_key self).
Local Abbreviation S' := (_snapshot_key self).

Lemma dequeue_worker_trace method (st : state World) :
  method = (if _reverse self then "zrevrange" else "zrange") →
  ∃ tr', trace (dequeue_worker self method st).1 = trace st ++ tr'.
Proof.
  intros Hm. destruct st as [d ni pe co w tr].
  destruct (peek_cases self d) as [Hp|(m & s & Hp)].
  - rewrite (dequeue_worker_empty self _ _ _ _ _ _ _ Hm Hp). by eexists.
  - rewrite (dequeue_worker_item self _ _ _ _ _ _ _ m s Hm Hp). cbv zeta.
    destruct (ready_to_process self (VNum s) (VStr m) w) as [w' [[|]|e]];
      [| |destruct (is_Exception e)]; cbn [fst trace];
      rewrite <- ?app_assoc; by eexists.
Qed.

Lemma attempts_trace method watches rivals (st : state World) :
  method = (if _reverse self then "zrevrange" else "zrange") →
  ∃ tr',
    trace (attempts (dequeue_worker self method) watches rivals st).1
    = trace st ++ tr'.
Proof.
  intros Hm. revert st. induction rivals as [|write rivals IH]; intros st.
  all: cbn [attempts].
  all: destruct (dequeue_worker_trace method
                   (set_pending [] (emit (Watch watches) st)) Hm)
         as [tr1 H1].
  all: destruct (dequeue_worker self method _) as [st1 [[]|e]];
    cbn [fst] in *.
  - exists ([Watch watches] ++ tr1 ++ [Commit (pending st1)]).
    cbv [set_pending emit set_db] in *. cbn [trace] in *.
    by rewrite H1, <- !app_assoc.
  - exists ([Watch watches] ++ tr1).
    cbv [set_pending emit set_db] in *. cbn [trace] in *.
    by rewrite H1, <- !app_assoc.
  - destruct (IH (set_pending [] (set_db (write (db st1)) st1))) as [tr2 H2].
    exists ([Watch watches] ++ tr1 ++ tr2). etransitivity; [exact H2|].
    cbv [set_pending emit set_db] in *. cbn [trace] in *.
    by rewrite H1, <- !app_assoc.
  - exists ([Watch watches] ++ tr1).
    cbv [set_pending emit set_db] in *. cbn [trace] in *.
    by rewrite H1, <- !app_assoc.
Qed.

Lemma dequeue_trace (st : state World) :
  ∃ tr', trace (dequeue self st).1 = trace st ++ tr'.
Proof.
  unfold dequeue. cbv [bind assign_next_item next_item ret transaction].
  set (st0 := State _ _ _ _ _ _).
  assert (H0 : ∀ c, trace (set_contention c st0) = trace st) by done.
  destruct (contention st0) as [|rivals later].
  - destruct (attempts_trace _ [Q; S'] [] st0 eq_refl) as [tr' H].
    destruct (attempts _ _ _ _) as [st1 [[]|e]]; cbn [fst] in *;
      rewrite H; by eexists.
  - destruct (attempts_trace _ [Q; S'] rivals (set_contention later st0)
                eq_refl) as [tr' H].
    destruct (attempts _ _ _ _) as [st1 [[]|e]]; cbn [fst] in *;
      rewrite H, H0; by eexists.
Qed.

Lemma caught_trace e (st : state World) :
  ∃ tr', trace (caught e st).1 = trace st ++ tr'.
Proof.
  unfold caught. destruct (is_Exception e); [destruct (str e)|];
    cbv [contained emit]; cbn [fst trace]; rewrite <- ?app_assoc;
    try (by eexists); exists []; by rewrite app_nil_r.
Qed.

Lemma _run_iteration_trace sleep (st : state World) :
  ∃ tr',
    trace (_run_iteration self sleep st).1 = trace (backoff sleep st) ++ tr'.
Proof.
  rewrite _run_iteration_unfold.
  destruct (dequeue_trace (backoff sleep st)) as [tr1 H1].
  destruct (dequeue self (backoff sleep st)) as [st1 [[score member]|e]];
    cbn [fst] in H1.
  - destruct (is_not_None score).
    + destruct (process self score member (world st1)) as [w [[]|e]].
      * destruct member; cbv zeta; cbv [contained emit set_world];
          cbn [fst trace]; rewrite H1, <- ?app_assoc; by eexists.
      * destruct (caught_trace e (emit (Call "process" [score; member])
                                    (set_world w st1))) as [tr2 H2].
        rewrite H2. cbv [emit set_world]. cbn [trace].
        rewrite H1, <- !app_assoc. by eexists.
    + cbn [fst trace]. rewrite H1. exists tr1. done.
  - destruct (caught_trace e st1) as [tr2 H2]. rewrite H2, H1, <- app_assoc.
    by eexists.
Qed.

End traces.

End PollerFacts.

(** ** The claim / snapshot / recovery protocol *)

Module Protocol.
Import Redis RedisFacts Py Poller PollerFacts Examples Scenarios.

Section claims.
Context {World : Type}.
Variable self : poller World.

Local Abbreviation Q := (_sorted_set_key self).
Local Abbreviation S' := (_snapshot_key self).

(** *** Recovery *)

(** C1, as the code has it.  When the snapshot exists and its cardinality
    differs from the queue's, the recovery step replaces the queue by the
    snapshot: afterwards every member of the snapshot is in the queue with
    the score it has in the snapshot, no other member is in the queue, and
    the snapshot is as it was.  (The code logs the step as "Replacing"
    the queue with the snapshot: the union is taken over the snapshot alone
    and overwrites its destination.) *)
Theorem recovery_replaces_queue (st : state World) :
  exists_ S' (db st) = true →
  zcard Q (db st) ≠ zcard S' (db st) →
  let st' := (run_recovery self st).1 in
  (run_recovery self st).2 = Ret tt
  ∧ (∀ m, zset_at Q (db st') !! m = zset_at S' (db st) !! m)
  ∧ zset_at S' (db st') = zset_at S' (db st)
  ∧ Cmd Client (ZUNIONSTORE Q [S']) ∈ trace st'.
Proof.
  intros He Hc. destruct st as [d ni pe co w tr]. simpl in He, Hc.
  rewrite run_recovery_unfold.
  assert (members_lost self d = true) as ->.
  { unfold members_lost. rewrite He. simpl.
    by apply negb_true_iff, Nat.eqb_neq. }
  cbn [fst snd db trace]. read_store. split_and!; [done..|].
  set_solver.
Qed.

(** C9.  After one recovery step the snapshot is absent or has the
    cardinality of the queue, so that a second step right after it leaves
    the store as it is and issues nothing but reads. *)
Theorem recovery_idempotent (st : state World) :
  let st1 := (run_recovery self st).1 in
  let st2 := (run_recovery self st1).1 in
  (exists_ S' (db st1) = false ∨ zcard Q (db st1) = zcard S' (db st1))
  ∧ db st2 = db st1
  ∧ ∃ reads, trace st2 = trace st1 ++ reads
             ∧ Forall (λ e, mutation e = false) reads.
Proof.
  destruct st as [d ni pe co w tr].
  rewrite run_recovery_unfold.
  set (st1 := (if members_lost self d then _ else _).1).
  assert (Hl : members_lost self (db st1) = false).
  { subst st1. destruct (members_lost self d) eqn:E; cbn [fst db]; [|done].
    apply members_lost_recovered. }
  cbv zeta. split.
  { unfold members_lost in Hl.
    apply andb_false_iff in Hl as [Hl|Hl]; [by left|right].
    by apply negb_false_iff, Nat.eqb_eq in Hl. }
  destruct st1 as [d1 ni1 pe1 co1 w1 tr1]. cbn [db] in Hl.
  rewrite run_recovery_unfold, Hl. cbn [fst db trace]. split; [done|].
  eexists. split; [done|].
  destruct (exists_ S' d1); repeat constructor.
Qed.

(** *** dequeue *)

(** C8.  With no rival write, [dequeue] on a queue that is empty or whose
    key is absent returns [(None, None)]; it raises nothing, leaves the
    store as it is, and logs that the queue does not exist. *)
Theorem dequeue_empty_queue (st : state World) :
  contention st = [] →
  zset_at Q (db st) = ∅ →
  ∃ st', dequeue self st = (st', Ret (VNone, VNone))
         ∧ db st' = db st
         ∧ Log "info" "Polling queue doesn't exist" ∈ trace st'.
Proof.
  intros Hc Hq. destruct st as [d ni pe co w tr]. simpl in *. subst co.
  apply peek_nil in Hq. rewrite (dequeue_empty self _ _ _ _ _ Hq).
  eexists. split_and!; [done..|]. cbn [trace]. set_solver.
Qed.

(** C7, as the code has it.  When [dequeue] reads an entry off a queue
    that is not empty, it calls the predicate with the score of the entry
    as first argument and its member as second one, the order of the
    signature [ready_to_process(self, score, member)]; what that call
    answers decides whether an entry is returned. *)
Theorem predicate_called_with_score_then_member (st : state World)
    (m : string) (s : Z) :
  contention st = [] →
  peek self (db st) = [(m, s)] →
  let st' := (dequeue self st).1 in
  let call := ready_to_process self (VNum s) (VStr m) (world st) in
  Call "ready_to_process" [VNum s; VStr m] ∈ trace st'
  ∧ world st' = call.1
  ∧ ((dequeue self st).2 = Ret (VNone, VNone) ↔ call.2 = Ret false).
Proof.
  intros Hc Hp. destruct st as [d ni pe co w tr]. simpl in *. subst co.
  rewrite (dequeue_item self _ _ _ _ _ _ _ Hp). cbv zeta.
  destruct (ready_to_process self (VNum s) (VStr m) w) as [w' [[|]|e]];
    [| |destruct (is_Exception e)]; cbn [fst snd trace world];
    (split_and!; [set_solver|done|split; congruence]).
Qed.

(** C4.  With no rival write and a predicate that always accepts, [n]
    calls of [dequeue] after the calls of [enqueue] for [items] return the
    first [n] entries of the queue in its claim order, and [(None, None)]
    from then on.  The claim order lists every entry of the queue once,
    sorted by score, ascending or, for a reverse poller, descending; among
    equal scores the order of the members decides. *)
Theorem claims_in_score_order (st : state World) (items : list (Z * string))
    (n : nat) :
  contention st = [] →
  (∀ score member w, (ready_to_process self score member w).2 = Ret true) →
  let queue := enqueued items (zset_at Q (db st)) in
  let order := claim_order self queue in
  ((enqueue_all self items ;; dequeue_many self n) st).2 = Ret (claims order n)
  ∧ Sorted (claim_le self) order
  ∧ NoDup order
  ∧ (∀ m s, (m, s) ∈ order ↔ queue !! m = Some s).
Proof.
  intros Hc Hready queue order. destruct st as [d ni pe co w tr].
  simpl in Hc. subst co. split_and!.
  - cbv [bind].
    destruct (enqueue_all_seq self items d ni pe w tr)
      as (d' & pe' & tr' & -> & Hq).
    rewrite dequeue_many_seq by done. by rewrite Hq.
  - apply claim_order_sorted.
  - unfold order. rewrite claim_order_perm. apply NoDup_map_to_list.
  - intros m s. apply elem_of_claim_order.
Qed.

(** C10.  With no rival write, when the predicate raises an [Exception]
    on the entry [dequeue] has read, [dequeue] swallows it in its worker
    (it is logged there) and returns the entry as if it were claimed, while
    the member is still in the queue; the pass of the loop then calls
    [process] on it (the world the pass ends in is the one [process]
    returned) and, when that returns, removes the member from the snapshot
    only. *)
Theorem predicate_error_item_processed (sleep : bool) (st : state World)
    (m : string) (s : Z) (w : World) (e : exn) :
  contention st = [] →
  peek self (db st) = [(m, s)] →
  ready_to_process self (VNum s) (VStr m) (world st) = (w, Raise e) →
  is_Exception e = true →
  (∃ st1, dequeue self st = (st1, Ret (VNum s, VStr m))
          ∧ world st1 = w
          ∧ worker_log e ∈ trace st1
          ∧ zset_at Q (db st1) = zset_at Q (db st)
          ∧ zset_at Q (db st1) !! m = Some s)
  ∧ (∀ w', process self (VNum s) (VStr m) w = (w', Ret tt) →
       ∃ st2, _run_iteration self sleep st = (st2, Ret false)
              ∧ world st2 = w'
              ∧ Call "process" [VNum s; VStr m] ∈ trace st2
              ∧ Cmd Client (ZREM S' m) ∈ trace st2
              ∧ zset_at Q (db st2) = zset_at Q (db st)
              ∧ zset_at S' (db st2) = delete m (zset_at Q (db st))).
Proof.
  intros Hc Hp Hr He. destruct st as [d ni pe co w0 tr]. simpl in *. subst co.
  pose proof (peek_lookup self _ _ _ Hp) as Hl.
  split.
  - rewrite (dequeue_item self _ _ _ _ _ _ _ Hp). cbv zeta. rewrite Hr, He.
    eexists. split; [reflexivity|]. cbn [world trace db].
    read_store.
    split_and!; [done| |done..].
    set_solver.
  - intros w' Hw. rewrite _run_iteration_unfold.
    assert (∃ tr', backoff sleep (State d ni pe [] w0 tr)
                   = State d ni pe [] w0 tr')
      as [tr' ->] by (destruct sleep; by eexists).
    rewrite (dequeue_item self _ _ _ _ _ _ _ Hp). cbv zeta. rewrite Hr, He.
    cbn [is_not_None world]. rewrite Hw. cbv zeta.
    eexists. split; [reflexivity|]. norm_state.
    read_store.
    split_and!; [done|set_solver|set_solver|done|done].
Qed.

(** *** The loop *)

(** C3, as the code has it.  An [Exception] raised by [process] is caught
    at the end of the pass; when it can be formatted for the log entry, it
    is logged there and the loop goes on with the flag set, so that the
    next pass sleeps before it does anything else.  An [Exception] raised
    by the predicate does not reach the loop: the worker of [dequeue]
    catches and logs it, and [dequeue] returns.  With a [process] whose
    [Exception]s can be formatted, what leaves a pass is never an
    [Exception]: no such exception of a callback ends the loop. *)
Theorem callback_errors_contained (sleep : bool) (st : state World) :
  ((∀ score member w w' e,
      process self score member w = (w', Raise e) →
      is_Exception e = true → printable e) →
   ∀ e, (_run_iteration self sleep st).2 = Raise e → is_Exception e = false)
  ∧ (∀ st1 score member w e,
       dequeue self (backoff sleep st) = (st1, Ret (score, member)) →
       score ≠ VNone →
       process self score member (world st1) = (w, Raise e) →
       is_Exception e = true →
       printable e →
       let st' := contained e (emit (Call "process" [score; member])
                                 (set_world w st1)) in
       _run_iteration self sleep st = (st', Ret true)
       ∧ (∀ fuel,
            _run_loop self (S fuel) sleep st = _run_loop self fuel true st')
       ∧ ∃ tr', trace (_run_iteration self true st').1
                = trace st'
                    ++ Log "info" "sleeping for %s seconds" :: Sleep :: tr')
  ∧ (∀ m s w e,
       contention st = [] →
       peek self (db st) = [(m, s)] →
       ready_to_process self (VNum s) (VStr m) (world st) = (w, Raise e) →
       is_Exception e = true →
       ∃ st1, dequeue self (backoff sleep st) = (st1, Ret (VNum s, VStr m))
              ∧ worker_log e ∈ trace st1).
Proof.
  split_and!.
  - intros Hprint e. rewrite _run_iteration_unfold.
    pose proof (dequeue_shape self (backoff sleep st)) as Hd.
    destruct (dequeue self (backoff sleep st)) as [st1 [[score member]|e1]].
    + destruct (is_not_None score); [|done].
      destruct (process self score member (world st1)) as [w [[]|e2]] eqn:Ep.
      * by destruct member.
      * unfold caught. destruct (is_Exception e2) eqn:E.
        -- destruct (Hprint _ _ _ _ _ Ep E) as [message ->]. done.
        -- by intros [= <-].
    + unfold caught. by rewrite Hd; intros [= <-].
  - intros st1 score member w e Hd Hs Hp He [message Hm] st'.
    assert (Hi : _run_iteration self sleep st = (st', Ret true)).
    { rewrite _run_iteration_unfold, Hd.
      destruct score; [done|..]; cbn [is_not_None]; rewrite Hp;
        unfold caught; by rewrite He, Hm. }
    split_and!; [done| |].
    + intros fuel. cbn [_run_loop]. by rewrite Hi.
    + destruct (_run_iteration_trace self true st') as [tr' ->].
      exists tr'. cbv [backoff emit]. cbn [trace].
      by rewrite <- !app_assoc.
  - intros m s w e Hc Hp Hr He.
    destruct st as [d ni pe co w0 tr]. simpl in *. subst co.
    assert (∃ tr', backoff sleep (State d ni pe [] w0 tr)
                   = State d ni pe [] w0 tr')
      as [tr' ->] by (destruct sleep; by eexists).
    rewrite (dequeue_item self _ _ _ _ _ _ _ Hp). cbv zeta. rewrite Hr, He.
    eexists. split; [reflexivity|].
    cbn [trace]. set_solver.
Qed.

(** C6, as the code has it.  Of a pass in which [dequeue] returned: when
    nothing was claimed, and when an item was claimed and [process]
    returned, [_next_item] is [(None, None)] at the end of the pass; when
    [process] raised, the assignment that resets it is skipped and
    [_next_item] still holds the claimed entry. *)
Theorem next_item_after_pass (sleep : bool) (st st1 : state World)
    (score member : value) :
  dequeue self (backoff sleep st) = (st1, Ret (score, member)) →
  let st' := (_run_iteration self sleep st).1 in
  (score = VNone → _next_item st' = (VNone, VNone))
  ∧ (∀ w, score ≠ VNone →
          process self score member (world st1) = (w, Ret tt) →
          _next_item st' = (VNone, VNone))
  ∧ (∀ w e, score ≠ VNone →
            process self score member (world st1) = (w, Raise e) →
            _next_item st' = (member, score)).
Proof.
  intros Hd st'. subst st'. rewrite _run_iteration_unfold.
  pose proof (dequeue_shape self (backoff sleep st)) as Hs.
  rewrite Hd in Hs. destruct Hs as [Hni Hs]. cbn [fst snd] in Hni.
  rewrite Hd. split_and!.
  - by intros ->.
  - intros w Hn Hp. destruct score; [done|..]; cbn [is_not_None]; rewrite Hp.
    all: destruct Hs as [Hs|(m0 & s0 & Hs)]; rewrite Hs in Hni;
      injection Hni as <- <-; done.
  - intros w e Hn Hp. destruct score; [done|..]; cbn [is_not_None]; rewrite Hp.
    all: unfold caught; destruct (is_Exception e); [destruct (str e)|]; done.
Qed.

(** C5.  Let the loop of [run] have made [k] passes and, with no rival
    write, claim the entry [(s, m)] in the next one; let [KeyboardInterrupt]
    arrive while [process] works on it.  Then [run] returns, given fuel for
    these passes; it has called [enqueue] once, with that score and member,
    after which the member is in the queue with its score, and the member
    is still in the snapshot. *)
Theorem interrupted_item_requeued (st : state World) (k fuel : nat)
    (sleep : bool) (st_k st1 : state World) (s : Z) (m : string) (w : World) :
  _run_passes self k false (loop_entry self st) = Some (sleep, st_k) →
  contention st_k = [] →
  dequeue self (backoff sleep st_k) = (st1, Ret (VNum s, VStr m)) →
  process self (VNum s) (VStr m) (world st1) = (w, Raise KeyboardInterrupt) →
  (k < fuel)%nat →
  ∃ st', run self fuel st = Some (st', Ret tt)
         ∧ db st' = zadd Q s m (db st1)
         ∧ zset_at Q (db st') !! m = Some s
         ∧ zset_at S' (db st') !! m = Some s
         ∧ trace st' =
             trace st1 ++
             [Call "process" [VNum s; VStr m];
              Log "info" "received KeyboardInterrupt";
              Watch [Q]; Cmd Pipe (ZADD Q s m); Commit [ZADD Q s m];
              Log "info" "enqueued (%s, %s) while handling KeyboardInterrupt";
              Log "info" "ending polling loop for key: %s in Redis: %s"].
Proof.
  intros Hk Hc Hd Hp Hf.
  assert (Hc' : contention (backoff sleep st_k) = []) by (by destruct sleep).
  destruct (dequeue_claimed_inv self _ _ _ _ Hc' Hd)
    as (Hc1 & Hni & Hl & Hsnap).
  assert (Hdb : db (backoff sleep st_k) = db st_k) by (by destruct sleep).
  rewrite Hdb in Hl, Hsnap.
  rewrite run_unfold.
  replace fuel with (k + S (fuel - S k))%nat by lia.
  rewrite (_run_loop_passes self _ _ _ _ _ _ Hk).
  cbn [_run_loop]. rewrite _run_iteration_unfold, Hd. cbn [is_not_None].
  rewrite Hp. unfold caught. cbn [is_Exception]. cbv zeta.
  destruct st1 as [d1 ni1 pe1 co1 w1 tr1].
  simpl in Hc1, Hni, Hsnap. subst co1 ni1.
  cbv [emit set_world]. cbn [db _next_item pending contention world trace].
  rewrite run_interrupted_requeue.
  eexists. split; [reflexivity|]. cbn [db trace]. read_store.
  rewrite lookup_insert_eq, Hsnap, <- app_assoc. done.
Qed.

End claims.

(** *** The properties at concrete pollers *)

(** C1 at a queue [{a: 1, b: 2}] with the snapshot [{a: 5}]. *)
Lemma recovery_replaces_queue_witness :
  let self := poller_q false accept succeed in
  let st := start tt diverged in
  let st' := (run_recovery self st).1 in
  (run_recovery self st).2 = Ret tt
  ∧ (∀ m, zset_at "q" (db st') !! m = zset_at "q-snapshot" (db st) !! m)
  ∧ zset_at "q-snapshot" (db st') = zset_at "q-snapshot" (db st)
  ∧ Cmd Client (ZUNIONSTORE "q" ["q-snapshot"]) ∈ trace st'.
Proof.
  apply (recovery_replaces_queue (poller_q false accept succeed)
           (start tt diverged)).
  - vm_compute. reflexivity.
  - vm_compute. lia.
Defined.

(** C1 as stated fails: on the queue [{a: 1, b: 2}] with the snapshot
    [{a: 5}] the recovery step runs, and leaves [a] with the score 5, not
    the sum 6, and [b] out of the queue: the result is no additive merge. *)
Lemma recovery_not_additive :
  let self := poller_q false accept succeed in
  let st := start tt diverged in
  let st' := (run_recovery self st).1 in
  exists_ "q-snapshot" (db st) = true
  ∧ zcard "q" (db st) ≠ zcard "q-snapshot" (db st)
  ∧ zset_at "q" (db st') !! "a" = Some 5
  ∧ zset_at "q" (db st') !! "b" = None
  ∧ ¬ additive_merge (zset_at "q" (db st)) (zset_at "q-snapshot" (db st))
        (zset_at "q" (db st')).
Proof.
  split_and!; [by vm_compute|vm_compute; lia|by vm_compute|by vm_compute|].
  intros H. specialize (H "b"). vm_compute in H. discriminate.
Qed.

(** C2 fails on the code.  On the queue [{y: 1}] with no snapshot, the
    worker of [dequeue] sends the overwrite of the snapshot on the client,
    not on the pipeline: when the worker is done and nothing is committed
    yet, the snapshot is written already, while the removal from the queue
    is held back.  When the transaction is left without a commit (here by
    an interrupt in the predicate), the snapshot stays written.  And when
    a rival write invalidates the first attempt, the snapshot is written in
    both attempts, for one commit. *)
Lemma snapshot_written_outside_transaction :
  let st := start tt queue_y in
  let st1 := (dequeue_worker (poller_q false accept succeed) "zrange" st).1 in
  let r2 := dequeue (poller_q false (predicate_raising KeyboardInterrupt)
                       succeed) st in
  let r3 := dequeue (poller_q false accept succeed) raced in
  let overwrite := Cmd Client (ZUNIONSTORE "q-snapshot" ["q"]) in
  zset_at "q-snapshot" (db st) = ∅
  ∧ overwrite ∈ trace st1
  ∧ Cmd Pipe (ZREM "q" "y") ∈ trace st1
  ∧ pending st1 = [ZREM "q" "y"]
  ∧ zset_at "q" (db st1) = {[ "y" := 1 ]}
  ∧ zset_at "q-snapshot" (db st1) = {[ "y" := 1 ]}
  ∧ r2.2 = Raise KeyboardInterrupt
  ∧ filter is_commit (trace r2.1) = []
  ∧ zset_at "q-snapshot" (db r2.1) = {[ "y" := 1 ]}
  ∧ r3.2 = Ret (VNum 0, VStr "z")
  ∧ filter (λ e, bool_decide (e = overwrite)) (trace r3.1)
    = [overwrite; overwrite]
  ∧ filter is_commit (trace r3.1) = [Commit [ZREM "q" "z"]].
Proof.
  split_and!; try (vm_compute; reflexivity); decide_now.
Qed.

(** C8 at the empty store. *)
Lemma dequeue_empty_queue_witness :
  ∃ st', dequeue (poller_q false accept succeed) (start tt ∅)
         = (st', Ret (VNone, VNone))
         ∧ db st' = ∅
         ∧ Log "info" "Polling queue doesn't exist" ∈ trace st'.
Proof.
  apply (dequeue_empty_queue (poller_q false accept succeed) (start tt ∅)).
  - reflexivity.
  - reflexivity.
Defined.

(** C7 at the queue [{y: 1}]. *)
Lemma predicate_called_with_score_then_member_witness :
  let self := poller_q false score_first succeed in
  let st' := (dequeue self (start tt queue_y)).1 in
  Call "ready_to_process" [VNum 1; VStr "y"] ∈ trace st'
  ∧ world st' = tt
  ∧ ((dequeue self (start tt queue_y)).2 = Ret (VNone, VNone)
     ↔ (Ret true : result bool) = Ret false).
Proof.
  apply (predicate_called_with_score_then_member
           (poller_q false score_first succeed) (start tt queue_y) "y" 1).
  - reflexivity.
  - vm_compute. reflexivity.
Defined.

(** C7 as stated fails: on the queue [{y: 1}], [dequeue] does not call the
    predicate with the member first and the score second; a predicate that
    rejects that order and accepts the other one lets the entry be
    claimed. *)
Lemma predicate_not_called_with_member_first :
  let self := poller_q false score_first succeed in
  let st' := (dequeue self (start tt queue_y)).1 in
  peek self queue_y = [("y", 1)]
  ∧ (Call "ready_to_process" [VStr "y"; VNum 1] ∉ trace st')
  ∧ Call "ready_to_process" [VNum 1; VStr "y"] ∈ trace st'
  ∧ (ready_to_process self (VStr "y") (VNum 1) tt).2 = Ret false
  ∧ (dequeue self (start tt queue_y)).2 = Ret (VNum 1, VStr "y").
Proof.
  split_and!; try (vm_compute; reflexivity); decide_now.
Qed.

(** C4 at three calls of [enqueue] and four of [dequeue]. *)
Lemma claims_in_score_order_witness :
  ((enqueue_all (poller_q false accept succeed) [(5, "x"); (1, "y"); (3, "z")] ;;
    dequeue_many (poller_q false accept succeed) 4) (start tt ∅)).2
  = Ret [(VNum 1, VStr "y"); (VNum 3, VStr "z"); (VNum 5, VStr "x");
         (VNone, VNone)]
  ∧ ((enqueue_all (poller_q true accept succeed) [(5, "x"); (1, "y"); (3, "z")] ;;
      dequeue_many (poller_q true accept succeed) 2) (start tt ∅)).2
    = Ret [(VNum 5, VStr "x"); (VNum 3, VStr "z")].
Proof.
  split.
  - destruct (claims_in_score_order (poller_q false accept succeed)
                (start tt ∅) [(5, "x"); (1, "y"); (3, "z")] 4) as [H _].
    + reflexivity.
    + reflexivity.
    + rewrite H. vm_compute. reflexivity.
  - destruct (claims_in_score_order (poller_q true accept succeed)
                (start tt ∅) [(5, "x"); (1, "y"); (3, "z")] 2) as [H _].
    + reflexivity.
    + reflexivity.
    + rewrite H. vm_compute. reflexivity.
Defined.

(** C10 at the queue [{y: 1}], a predicate that raises and a work function
    that counts its calls. *)
Lemma predicate_error_item_processed_witness :
  let self := poller_q false (refusing (UserError "boom")) counted in
  let st := start 0%nat queue_y in
  (∃ st1, dequeue self st = (st1, Ret (VNum 1, VStr "y"))
          ∧ world st1 = 0%nat
          ∧ LogTraceback "error" (UserError "boom") ∈ trace st1
          ∧ zset_at "q" (db st1) = zset_at "q" (db st)
          ∧ zset_at "q" (db st1) !! "y" = Some 1)
  ∧ ∃ st2, _run_iteration self false st = (st2, Ret false)
           ∧ world st2 = 1%nat
           ∧ Call "process" [VNum 1; VStr "y"] ∈ trace st2
           ∧ Cmd Client (ZREM "q-snapshot" "y") ∈ trace st2
           ∧ zset_at "q" (db st2) = zset_at "q" (db st)
           ∧ zset_at "q-snapshot" (db st2) = delete "y" (zset_at "q" (db st)).
Proof.
  destruct (predicate_error_item_processed
              (poller_q false (refusing (UserError "boom")) counted)
              false (start 0%nat queue_y) "y" 1 0%nat (UserError "boom"))
    as [H1 H2].
  - reflexivity.
  - vm_compute. reflexivity.
  - reflexivity.
  - reflexivity.
  - split; [exact H1|]. apply (H2 1%nat). reflexivity.
Defined.

(** C3 at the queue [{y: 1}]: a work function that raises an [Exception] at
    its first call and is interrupted at the second, and a predicate that
    raises. *)
Lemma callback_errors_contained_witness :
  ((_run_iteration (poller_q false accept fails_then_interrupted) false
      (start 1%nat queue_y)).2 = Raise KeyboardInterrupt →
   is_Exception KeyboardInterrupt = false)
  ∧ (∃ st', _run_iteration (poller_q false accept fails_then_interrupted)
              false (start 0%nat queue_y) = (st', Ret true)
            ∧ ∃ tr', trace (_run_iteration
                              (poller_q false accept fails_then_interrupted)
                              true st').1
                     = trace st'
                         ++ Log "info" "sleeping for %s seconds" :: Sleep
                              :: tr')
  ∧ ∃ st1, dequeue (poller_q false (predicate_raising (UserError "boom"))
                      succeed) (start tt queue_y)
           = (st1, Ret (VNum 1, VStr "y"))
           ∧ LogTraceback "error" (UserError "boom") ∈ trace st1.
Proof.
  split_and!.
  - destruct (callback_errors_contained
                (poller_q false accept fails_then_interrupted)
                false (start 1%nat queue_y)) as (H & _ & _).
    apply H. intros score member w w' e Hp He.
    unfold process, poller_q, fails_then_interrupted in Hp.
    destruct (w =? 0)%nat; injection Hp as _ <-; [by exists "boom"|].
    discriminate He.
  - destruct (callback_errors_contained
                (poller_q false accept fails_then_interrupted)
                false (start 0%nat queue_y)) as (_ & H & _).
    destruct (H (dequeue (poller_q false accept fails_then_interrupted)
                   (start 0%nat queue_y)).1
                (VNum 1) (VStr "y") 1%nat (UserError "boom"))
      as (Hi & _ & Hs).
    + vm_compute. reflexivity.
    + discriminate.
    + reflexivity.
    + reflexivity.
    + by exists "boom".
    + eexists. split; [exact Hi|exact Hs].
  - destruct (callback_errors_contained
                (poller_q false (predicate_raising (UserError "boom")) succeed)
                false (start tt queue_y)) as (_ & _ & H).
    apply (H "y" 1 tt (UserError "boom")).
    + reflexivity.
    + vm_compute. reflexivity.
    + reflexivity.
    + reflexivity.
Defined.

(** C3 as stated fails: on the queue [{y: 1}], with a predicate that raises
    an [Exception] and a work function that returns, the handler at the end
    of the pass catches nothing (its log entries are not there): the entry
    goes to [process], and the pass ends with the flag that makes the next
    one start without a sleep. *)
Lemma predicate_error_not_contained_by_loop :
  let self := poller_q false (predicate_raising (UserError "boom")) succeed in
  let r := _run_iteration self false (start tt queue_y) in
  (ready_to_process self (VNum 1) (VStr "y") tt).2 = Raise (UserError "boom")
  ∧ r.2 = Ret false
  ∧ (Log "error" "Error encountered when processing item: %s" ∉ trace r.1)
  ∧ (Log "warning" "Polling dequeue() or process() have not been executed"
     ∉ trace r.1)
  ∧ Call "process" [VNum 1; VStr "y"] ∈ trace r.1
  ∧ (Sleep ∉ trace (_run_iteration self false r.1).1).
Proof.
  split_and!; try (vm_compute; reflexivity); decide_now.
Qed.

(** The proviso of C3 on formatting is needed: on the queue [{y: 1}], with
    a work function that raises an [Exception] whose [__str__] raises, the
    handler at the end of the pass is left while it builds its first log
    entry, and the loop ends with what [__str__] raised, an [Exception]. *)
Lemma unformattable_error_leaves_loop :
  let self :=
    poller_q false accept (process_raising (Unprintable (UserError "str"))) in
  let r := _run_iteration self false (start tt queue_y) in
  r.2 = Raise (UserError "str")
  ∧ _run_loop self 1 false (start tt queue_y) = Some (r.1, UserError "str")
  ∧ is_Exception (UserError "str") = true
  ∧ (Log "error" "Error encountered when processing item: %s" ∉ trace r.1).
Proof.
  split_and!; try (vm_compute; reflexivity); decide_now.
Qed.

(** C6 at the queue [{y: 1}]: an item claimed and processed, and nothing
    claimed. *)
Lemma next_item_after_pass_witness :
  _next_item (_run_iteration (poller_q false accept succeed) false
                (start tt queue_y)).1 = (VNone, VNone)
  ∧ _next_item (_run_iteration (poller_q false accept succeed) true
                  (start tt ∅)).1 = (VNone, VNone).
Proof.
  split.
  - destruct (next_item_after_pass (poller_q false accept succeed) false
                (start tt queue_y)
                (dequeue (poller_q false accept succeed) (start tt queue_y)).1
                (VNum 1) (VStr "y")) as (_ & H & _).
    + vm_compute. reflexivity.
    + apply (H tt); [discriminate|reflexivity].
  - destruct (next_item_after_pass (poller_q false accept succeed) true
                (start tt ∅)
                (dequeue (poller_q false accept succeed)
                   (backoff true (start tt ∅))).1
                VNone VNone) as (H & _).
    + vm_compute. reflexivity.
    + apply H. reflexivity.
Defined.

(** C6 as stated fails: on the queue [{y: 1}], with a work function that
    raises an [Exception], the pass ends (the loop goes on) and [_next_item]
    is not [(None, None)]: it holds the claimed entry. *)
Lemma next_item_kept_when_process_raises :
  let self := poller_q false accept (process_raising (UserError "boom")) in
  let r := _run_iteration self false (start tt queue_y) in
  r.2 = Ret true
  ∧ _next_item r.1 = (VStr "y", VNum 1)
  ∧ _next_item r.1 ≠ (VNone, VNone).
Proof.
  split_and!; [vm_compute; reflexivity..|]. vm_compute. discriminate.
Qed.

(** C5 at the queue [{x: 5, y: 1}]: the first pass claims and processes
    [y]; the interrupt arrives while the second one processes [x]. *)
Lemma interrupted_item_requeued_witness :
  ∃ st', run (poller_q false accept interrupted_second) 2 (start 0%nat queue_xy)
         = Some (st', Ret tt)
         ∧ zset_at "q" (db st') !! "x" = Some 5
         ∧ zset_at "q-snapshot" (db st') !! "x" = Some 5.
Proof.
  destruct (interrupted_item_requeued
              (poller_q false accept interrupted_second)
              (start 0%nat queue_xy) 1 2 false
              (_run_iteration (poller_q false accept interrupted_second) false
                 (loop_entry (poller_q false accept interrupted_second)
                    (start 0%nat queue_xy))).1
              (dequeue (poller_q false accept interrupted_second)
                 (_run_iteration (poller_q false accept interrupted_second)
                    false
                    (loop_entry (poller_q false accept interrupted_second)
                       (start 0%nat queue_xy))).1).1
              5 "x" 2%nat)
    as (st' & Hrun & _ & Hq & Hs & _).
  - vm_compute. reflexivity.
  - vm_compute. reflexivity.
  - vm_compute. reflexivity.
  - vm_compute. reflexivity.
  - lia.
  - exists st'. split_and!; [exact Hrun|exact Hq|exact Hs].
Defined.

End Protocol.

(** ** Further facts on the loop *)

Module LoopFacts.
Import Redis RedisFacts Py Poller PollerFacts Observations.

Lemma exists_nonempty (key : string) (d : Store) :
  zset_at key d ≠ ∅ → exists_ key d = true.
Proof.
  unfold zset_at, exists_. intros H. apply bool_decide_eq_true.
  destruct (d !! key); [by eexists|done].
Qed.

Lemma exists_absent (key : string) (d : Store) :
  exists_ key d = false → zset_at key d = ∅.
Proof.
  unfold zset_at, exists_. intros H. apply bool_decide_eq_false in H.
  destruct (d !! key); [|done]. destruct H. by eexists.
Qed.

Section loop.
Context {World : Type}.
Variable self : poller World.

Local Abbreviation Q := (_sorted_set_key self).
Local Abbreviation S' := (_snapshot_key self).

(** The attempts of [enqueue]: every attempt that loses its race is run
    again, and the last one commits on what the rivals left. *)
Lemma enqueue_attempts rivals d ni pe co w tr s m :
  ∃ tr',
    attempts (enqueue_worker self (VNum s) (VStr m)) [Q] rivals
      (State d ni pe co w tr)
    = (State (zadd Q s m (foldl (λ d' write, write d') d rivals)) ni [] co w
         tr', Ret tt).
Proof.
  revert d pe tr. induction rivals as [|write rivals IH]; intros d pe tr.
  - eexists. cbn [attempts]. unfold enqueue_worker.
    cbv [pipe_zadd bind lift as_score as_member pipe_command]. norm_state.
    reflexivity.
  - cbn [attempts foldl]. unfold enqueue_worker at 1.
    cbv [pipe_zadd bind lift as_score as_member pipe_command]. norm_state.
    apply IH.
Qed.

Lemma enqueue_any d ni pe co w tr s m :
  ∃ d0 co' tr',
    enqueue self (VNum s) (VStr m) (State d ni pe co w tr)
    = (State (zadd Q s m d0) ni [] co' w tr', Ret tt)
    ∧ (co = [] → d0 = d ∧ co' = []).
Proof.
  unfold enqueue, transaction. cbn [contention].
  destruct co as [|rivals later].
  - destruct (enqueue_attempts [] d ni pe [] w tr s m) as [tr' ->].
    by eexists _, _, _.
  - cbv [set_contention]. cbn [db _next_item pending world trace].
    destruct (enqueue_attempts rivals d ni pe later w tr s m) as [tr' ->].
    by eexists _, _, _.
Qed.

(** Whatever happens in [dequeue], [_next_item] is empty or holds an
    entry afterwards. *)
Lemma dequeue_next_item_shape st :
  item_shape (_next_item (dequeue self st).1).
Proof.
  unfold dequeue. cbv [bind assign_next_item next_item ret transaction].
  set (st0 := State _ _ _ _ _ _).
  assert (Hs : ∀ c, item_shape (_next_item (set_contention c st0)))
    by (by left).
  destruct (contention st0) as [|rivals later].
  - destruct (attempts_shape self _ [Q; S'] [] st0 eq_refl (Hs (contention st0)))
      as [H1 _].
    by destruct (attempts _ _ _ _) as [st1 [[]|e]].
  - destruct (attempts_shape self _ [Q; S'] rivals _ eq_refl (Hs later))
      as [H1 _].
    by destruct (attempts _ _ _ _) as [st1 [[]|e]].
Qed.

(** After a pass [_next_item] is empty or holds an entry; and when every
    [Exception] of [process] can be formatted, what leaves the pass is no
    [Exception]. *)
Lemma _run_iteration_shape sleep st :
  item_shape (_next_item (_run_iteration self sleep st).1)
  ∧ ((∀ score member w w' e,
        process self score member w = (w', Raise e) →
        is_Exception e = true → printable e) →
     ∀ e, (_run_iteration self sleep st).2 = Raise e →
          is_Exception e = false).
Proof.
  rewrite _run_iteration_unfold.
  pose proof (dequeue_next_item_shape (backoff sleep st)) as Hs.
  pose proof (dequeue_shape self (backoff sleep st)) as Hd.
  destruct (dequeue self (backoff sleep st)) as [st1 [[score member]|e1]];
    cbn [fst] in Hs.
  - destruct (is_not_None score); [|split; [by left|done]].
    destruct (process self score member (world st1)) as [w [[]|e2]] eqn:Ep.
    + destruct member; cbv [contained emit set_world];
        cbn [fst snd _next_item]; (split; [first [by left|done]|done]).
    + unfold caught. destruct (is_Exception e2) eqn:E.
      * destruct (str e2) as [message|e3] eqn:Es;
          cbv [contained emit set_world]; cbn [fst snd _next_item];
          (split; [done|]); [done|].
        intros Hprint. destruct (Hprint _ _ _ _ _ Ep E) as [message Hm].
        congruence.
      * cbv [emit set_world]; cbn [fst snd _next_item]. split; [done|].
        by intros _ ? [= <-].
  - unfold caught. rewrite Hd. split; [done|]. by intros _ ? [= <-].
Qed.

Lemma _run_loop_exit fuel sleep st st' e :
  _run_loop self fuel sleep st = Some (st', e) →
  item_shape (_next_item st')
  ∧ ((∀ score member w w' e,
        process self score member w = (w', Raise e) →
        is_Exception e = true → printable e) →
     is_Exception e = false).
Proof.
  revert sleep st. induction fuel as [|fuel IH]; intros sleep st; [done|].
  cbn [_run_loop].
  destruct (_run_iteration_shape sleep st) as [Hs He].
  destruct (_run_iteration self sleep st) as [st1 [b|e1]]; cbn [fst snd] in *.
  - apply IH.
  - intros [= <- <-]. split; [done|]. intros Hprint. by apply He.
Qed.

Lemma run_interrupted_returns st :
  item_shape (_next_item st) →
  ∃ st',
    (run_interrupted self ;;
     log "info" "ending polling loop for key: %s in Redis: %s") st
    = (st', Ret tt).
Proof.
  intros Hs. destruct st as [d ni pe co w tr]. cbn [_next_item] in Hs.
  unfold run_interrupted. cbv [bind log tell next_item]. norm_state.
  destruct Hs as [->|(m & s & ->)]; cbn [is_not_None fst snd _next_item].
  - by eexists.
  - destruct (enqueue_any d (VStr m, VNum s) pe co w
                (tr ++ [Log "info" "received KeyboardInterrupt"]) s m)
      as (d0 & co' & tr' & -> & _).
    by eexists.
Qed.

End loop.
End LoopFacts.

Module PassFacts.
Import Redis RedisFacts Py Poller PollerFacts LoopFacts Observations.

Lemma processed_app (tr1 tr2 : list event) :
  processed (tr1 ++ tr2) = processed tr1 ++ processed tr2.
Proof. apply omap_app. Qed.

Lemma sleeps_app (tr1 tr2 : list event) :
  sleeps (tr1 ++ tr2) = (sleeps tr1 + sleeps tr2)%nat.
Proof. unfold sleeps. by rewrite filter_app, length_app. Qed.

Section pass.
Context {World : Type}.
Variable self : poller World.

Local Abbreviation Q := (_sorted_set_key self).
Local Abbreviation S' := (_snapshot_key self).

Lemma backoff_seq sleep d ni pe co (w : World) tr :
  ∃ tr', backoff sleep (State d ni pe co w tr) = State d ni pe co w (tr ++ tr')
         ∧ processed tr' = []
         ∧ sleeps tr' = (if sleep then 1 else 0)%nat.
Proof.
  destruct sleep; cbv [backoff emit]; cbn [db _next_item pending contention
                                            world trace].
  - exists [Log "info" "sleeping for %s seconds"; Sleep].
    by rewrite <- app_assoc.
  - exists []. by rewrite app_nil_r.
Qed.

(** A pass that finds the queue empty. *)
Lemma pass_idle sleep d ni pe w tr :
  peek self d = [] →
  ∃ tr',
    _run_iteration self sleep (State d ni pe [] w tr)
    = (State d (VNone, VNone) [] [] w (tr ++ tr'), Ret true)
    ∧ processed tr' = []
    ∧ sleeps tr' = (if sleep then 1 else 0)%nat.
Proof.
  intros Hp. rewrite _run_iteration_unfold.
  destruct (backoff_seq sleep d ni pe [] w tr) as (tr0 & -> & Hp0 & Hs0).
  rewrite (dequeue_empty self _ _ _ _ _ Hp). cbn [is_not_None].
  cbn [db _next_item pending contention world trace].
  rewrite <- app_assoc. eexists. split; [reflexivity|].
  rewrite processed_app, sleeps_app, Hp0, Hs0.
  unfold peek_command. destruct (_reverse self); split; cbn; lia || done.
Qed.

(** A pass in which the predicate accepts the entry that was read; what
    [process] does decides how it ends. *)
Lemma pass_claimed sleep d ni pe w tr m s w1 :
  peek self d = [(m, s)] →
  ready_to_process self (VNum s) (VStr m) w = (w1, Ret true) →
  ∃ tr',
    _run_iteration self sleep (State d ni pe [] w tr)
    = match process self (VNum s) (VStr m) w1 with
      | (w2, Ret _) =>
          (State (zrem S' m (zrem Q m (zunionstore S' [Q] d)))
             (VNone, VNone) [] [] w2
             (tr ++ tr' ++ [Log "info" "removing item from snapshot";
                            Cmd Client (ZREM S' m)]), Ret false)
      | (w2, Raise e) =>
          caught e (State (zrem Q m (zunionstore S' [Q] d))
                      (VStr m, VNum s) [] [] w2 (tr ++ tr'))
      end
    ∧ processed tr' = [(VNum s, VStr m)]
    ∧ sleeps tr' = (if sleep then 1 else 0)%nat.
Proof.
  intros Hp Hr. rewrite _run_iteration_unfold.
  destruct (backoff_seq sleep d ni pe [] w tr) as (tr0 & -> & Hp0 & Hs0).
  rewrite (dequeue_item self _ _ _ _ _ _ _ Hp). cbv zeta. rewrite Hr.
  cbn [is_not_None world].
  exists (tr0 ++ [Watch [Q; S']; Cmd Pipe (peek_command self);
                  Cmd Client (ZUNIONSTORE S' [Q]);
                  Log "info" "created snapshot %s from %s";
                  Call "ready_to_process" [VNum s; VStr m];
                  Cmd Pipe (ZREM Q m); Commit [ZREM Q m];
                  Call "process" [VNum s; VStr m]]).
  split.
  - destruct (process self (VNum s) (VStr m) w1) as [w2 [[]|e]];
      norm_state; reflexivity.
  - rewrite processed_app, sleeps_app, Hp0, Hs0.
    unfold peek_command. destruct (_reverse self), sleep; by cbn.
Qed.

End pass.
End PassFacts.

(** ** Further behaviour of the class *)

Module Behaviour.
Import Redis RedisFacts Py Poller PollerFacts LoopFacts PassFacts Examples
  Observations BaseClass Scenarios.

Lemma string_app_inj_r (a b c : string) : a +:+ c = b +:+ c → a = b.
Proof.
  intros H.
  assert (Hl : String.length a = String.length b).
  { apply (f_equal String.length) in H.
    rewrite !string_length_app in H. lia. }
  revert b H Hl. induction a as [|x a IH]; intros [|y b] H Hl;
    simpl in *; try done.
  injection H as -> H. f_equal. apply IH; [done|lia].
Qed.

Section behaviour.
Context {World : Type}.
Variable self : poller World.

Local Abbreviation Q := (_sorted_set_key self).
Local Abbreviation S' := (_snapshot_key self).

(** *** The constructor *)

(** X1.  The key of the snapshot is never the key of the queue, and two
    pollers have the same snapshot key only when they have the same queue
    key. *)
Theorem snapshot_key_distinct (other : poller World) :
  _snapshot_key self ≠ _sorted_set_key self
  ∧ (_snapshot_key self = _snapshot_key other →
     _sorted_set_key self = _sorted_set_key other).
Proof.
  split; [apply snapshot_key_ne|].
  unfold _snapshot_key. apply string_app_inj_r.
Qed.

(** *** dequeue *)

(** X3.  Whatever the contention, [dequeue] returns [(None, None)] or a
    score and a member, which [_next_item] then holds, and what it raises
    is never an [Exception]. *)
Theorem dequeue_returns_item_or_none (st : state World) :
  match dequeue self st with
  | (st1, Ret r) =>
      (r = (VNone, VNone) ∨ ∃ s m, r = (VNum s, VStr m))
      ∧ _next_item st1 = (r.2, r.1)
  | (st1, Raise e) => is_Exception e = false
  end.
Proof.
  pose proof (dequeue_shape self st) as H.
  destruct (dequeue self st) as [st1 [[score member]|e]]; [|done].
  destruct H as [Hni [Hs|(m & s & Hs)]]; cbn [fst snd] in *.
  - rewrite Hs in Hni. injection Hni as <- <-. split; [by left|done].
  - rewrite Hs in Hni. injection Hni as <- <-. split; [right; eauto|done].
Qed.

(** X4.  With no rival write, whenever [dequeue] reads an entry off the
    queue, the snapshot is afterwards the queue as it was when the call
    began, whatever the predicate answers or raises: the members of the
    former snapshot that are not in the queue are gone. *)
Theorem dequeue_snapshot_mirrors_queue (st : state World) (m : string)
    (s : Z) :
  contention st = [] →
  peek self (db st) = [(m, s)] →
  zset_at S' (db (dequeue self st).1) = zset_at Q (db st).
Proof.
  intros Hc Hp. destruct st as [d ni pe co w tr]. simpl in *. subst co.
  rewrite (dequeue_item self _ _ _ _ _ _ _ Hp). cbv zeta.
  destruct (ready_to_process self (VNum s) (VStr m) w) as [w' [[|]|e]];
    [| |destruct (is_Exception e)]; cbn [fst db]; by read_store.
Qed.

(** X5.  With no rival write, [dequeue] changes the queue in one way only:
    when the predicate accepts the entry it has read, that member is
    removed (and the entry returned); in every other case the queue is as
    it was. *)
Theorem dequeue_removes_claimed_only (st : state World) :
  contention st = [] →
  let r := dequeue self st in
  match peek self (db st) with
  | [(m, s)] =>
      match (ready_to_process self (VNum s) (VStr m) (world st)).2 with
      | Ret true =>
          r.2 = Ret (VNum s, VStr m)
          ∧ zset_at Q (db r.1) = delete m (zset_at Q (db st))
          ∧ zset_at S' (db r.1) !! m = Some s
      | _ => zset_at Q (db r.1) = zset_at Q (db st)
      end
  | _ => db r.1 = db st
  end.
Proof.
  intros Hc r. subst r. destruct st as [d ni pe co w tr]. simpl in *. subst co.
  destruct (peek_cases self d) as [Hp|(m & s & Hp)]; rewrite Hp.
  - by rewrite (dequeue_empty self _ _ _ _ _ Hp).
  - pose proof (peek_lookup self _ _ _ Hp) as Hl.
    rewrite (dequeue_item self _ _ _ _ _ _ _ Hp). cbv zeta.
    destruct (ready_to_process self (VNum s) (VStr m) w) as [w' [[|]|e]];
      [| |destruct (is_Exception e)]; cbn [fst snd db]; read_store; done.
Qed.

(** X6.  [_next_item] is reset before the transaction, not in its worker.
    So when the first attempt claims an entry and loses its race to a rival
    write that leaves the queue empty, the second attempt finds nothing,
    and [dequeue] still returns the entry of the first attempt, whose
    removal was dropped: the only commit is an empty one. *)
Theorem dequeue_returns_lost_claim (st : state World) (m : string) (s : Z)
    (w : World) (write : Store → Store)
    (later : list (list (Store → Store))) :
  contention st = [write] :: later →
  peek self (db st) = [(m, s)] →
  ready_to_process self (VNum s) (VStr m) (world st) = (w, Ret true) →
  zset_at Q (write (zunionstore S' [Q] (db st))) = ∅ →
  let r := dequeue self st in
  r.2 = Ret (VNum s, VStr m)
  ∧ db r.1 = write (zunionstore S' [Q] (db st))
  ∧ zset_at Q (db r.1) = ∅
  ∧ filter is_commit (trace r.1) = filter is_commit (trace st) ++ [Commit []].
Proof.
  intros Hc Hp Hr Hw r. subst r.
  destruct st as [d ni pe co w0 tr]. simpl in *. subst co.
  unfold dequeue.
  cbv [bind transaction attempts assign_next_item next_item ret].
  norm_state.
  rewrite (dequeue_worker_item self _ _ _ _ _ _ _ m s eq_refl Hp).
  cbv zeta. rewrite Hr. norm_state.
  apply peek_nil in Hw.
  rewrite (dequeue_worker_empty self _ _ _ _ _ _ _ eq_refl Hw).
  norm_state. split_and!; [done|done|by apply peek_nil|].
  rewrite filter_app. unfold peek_command.
  by destruct (_reverse self).
Qed.

(** *** enqueue *)

(** X7.  [enqueue] of a score and a member returns, whatever the
    contention, with the member in the queue at that score.  With no rival
    write the queue is what it was with the member added, or its score
    replaced when it was there, and no other key of the store changes. *)
Theorem enqueue_adds_or_updates (st : state World) (s : Z) (m : string) :
  let r := enqueue self (VNum s) (VStr m) st in
  r.2 = Ret tt
  ∧ zset_at Q (db r.1) !! m = Some s
  ∧ (contention st = [] →
     zset_at Q (db r.1) = <[m := s]> (zset_at Q (db st))
     ∧ ∀ key, key ≠ Q → zset_at key (db r.1) = zset_at key (db st)).
Proof.
  intros r. subst r. destruct st as [d ni pe co w tr].
  destruct (enqueue_any self d ni pe co w tr s m)
    as (d0 & co' & tr' & -> & Hseq).
  cbn [fst snd db contention]. split_and!; [done| |].
  - rewrite zset_at_zadd_eq. apply lookup_insert_eq.
  - intros Hc. destruct (Hseq Hc) as [-> _]. split.
    + apply zset_at_zadd_eq.
    + intros key Hk. by rewrite zset_at_zadd_ne.
Qed.

(** *** Recovery and the loop *)

(** X8.  When the snapshot is absent, or has as many members as the
    queue, whichever they are, the recovery step returns, sends no write
    and leaves the store as it is. *)
Theorem recovery_skipped (st : state World) :
  exists_ S' (db st) = false ∨ zcard Q (db st) = zcard S' (db st) →
  let r := run_recovery self st in
  r.2 = Ret tt
  ∧ db r.1 = db st
  ∧ writes (trace r.1) = writes (trace st).
Proof.
  intros H r. subst r. destruct st as [d ni pe co w tr]. simpl in H.
  rewrite run_recovery_unfold.
  assert (members_lost self d = false) as ->.
  { unfold members_lost. destruct H as [-> | H]; [done|].
    unfold zcard in *. rewrite H, Nat.eqb_refl. apply andb_false_r. }
  cbn [fst snd db trace]. split_and!; [done..|].
  unfold writes. rewrite filter_app.
  destruct (exists_ S' d); cbn; by rewrite app_nil_r.
Qed.

(** X9.  With no rival write, when [dequeue] has claimed an entry and
    nothing else happens before the next start (the process died), the
    recovery step puts the queue back as it was before the claim, the
    member at its score, and the two cardinalities agree again. *)
Theorem claim_then_recovery_restores (st : state World) (m : string) (s : Z)
    (w : World) :
  contention st = [] →
  peek self (db st) = [(m, s)] →
  ready_to_process self (VNum s) (VStr m) (world st) = (w, Ret true) →
  let st1 := (dequeue self st).1 in
  let st2 := (run_recovery self st1).1 in
  zset_at Q (db st1) !! m = None
  ∧ zset_at Q (db st2) = zset_at Q (db st)
  ∧ zset_at Q (db st2) !! m = Some s
  ∧ zcard Q (db st2) = zcard S' (db st2).
Proof.
  intros Hc Hp Hr. destruct st as [d ni pe co w0 tr]. simpl in *. subst co.
  pose proof (peek_lookup self _ _ _ Hp) as Hl.
  rewrite (dequeue_item self _ _ _ _ _ _ _ Hp). cbv zeta. rewrite Hr.
  cbn [fst]. rewrite run_recovery_unfold.
  set (d1 := zrem Q m (zunionstore S' [Q] d)).
  assert (Hq1 : zset_at Q d1 = delete m (zset_at Q d))
    by (subst d1; by read_store).
  assert (Hs1 : zset_at S' d1 = zset_at Q d) by (subst d1; by read_store).
  assert (members_lost self d1 = true) as ->.
  { unfold members_lost, zcard. rewrite Hq1, Hs1.
    rewrite exists_nonempty by (rewrite Hs1; intros E; by rewrite E in Hl).
    rewrite map_size_delete_Some by (by eexists). simpl.
    apply negb_true_iff, Nat.eqb_neq.
    assert (size (zset_at Q d) ≠ 0%nat)
      by (apply map_size_non_empty_iff; intros E; by rewrite E in Hl).
    lia. }
  cbn [fst db]. unfold zcard. read_store. rewrite Hq1, Hs1.
  split_and!; [apply lookup_delete_eq|done..].
Qed.

(** X10.  With no rival write, a pass in which the predicate accepts the
    entry read and [process] returns ends with [sleep_between_runs] false
    and with the member in neither the queue nor the snapshot, which
    agree. *)
Theorem processed_member_leaves_both_sets (sleep : bool) (st : state World)
    (m : string) (s : Z) (w1 w2 : World) :
  contention st = [] →
  peek self (db st) = [(m, s)] →
  ready_to_process self (VNum s) (VStr m) (world st) = (w1, Ret true) →
  process self (VNum s) (VStr m) w1 = (w2, Ret tt) →
  let r := _run_iteration self sleep st in
  r.2 = Ret false
  ∧ zset_at Q (db r.1) = delete m (zset_at Q (db st))
  ∧ zset_at S' (db r.1) = zset_at Q (db r.1)
  ∧ zset_at Q (db r.1) !! m = None
  ∧ zset_at S' (db r.1) !! m = None.
Proof.
  intros Hc Hp Hr Hw r. subst r.
  destruct st as [d ni pe co w tr]. simpl in *. subst co.
  destruct (pass_claimed self sleep d ni pe w tr m s w1 Hp Hr)
    as (tr' & -> & _). rewrite Hw. cbn [fst snd db].
  read_store. split_and!; [done..| |]; apply lookup_delete_eq.
Qed.

(** X11.  With no rival write, a pass in which the predicate accepts the
    entry read and [process] raises leaves the member out of the queue and
    in the snapshot, which is the queue as it was: the test of the
    recovery step holds, and a recovery step puts the queue back as it
    was.  The pass ends with [sleep_between_runs] true when what was
    raised is an [Exception] that can be formatted; it is left by what the
    formatting raises when it is an [Exception] whose [__str__] raises,
    and by the exception itself when it is no [Exception]. *)
Theorem failed_member_kept_for_recovery (sleep : bool) (st : state World)
    (m : string) (s : Z) (w1 w2 : World) (e : exn) :
  contention st = [] →
  peek self (db st) = [(m, s)] →
  ready_to_process self (VNum s) (VStr m) (world st) = (w1, Ret true) →
  process self (VNum s) (VStr m) w1 = (w2, Raise e) →
  let r := _run_iteration self sleep st in
  r.2 = (if is_Exception e then
           match str e with
           | Ret _ => Ret true
           | Raise e' => Raise e'
           end
         else Raise e)
  ∧ zset_at Q (db r.1) = delete m (zset_at Q (db st))
  ∧ zset_at S' (db r.1) = zset_at Q (db st)
  ∧ members_lost self (db r.1) = true
  ∧ zset_at Q (db (run_recovery self r.1).1) = zset_at Q (db st).
Proof.
  intros Hc Hp Hr Hw r. subst r.
  destruct st as [d ni pe co w tr]. simpl in *. subst co.
  pose proof (peek_lookup self _ _ _ Hp) as Hl.
  destruct (pass_claimed self sleep d ni pe w tr m s w1 Hp Hr)
    as (tr' & -> & _). rewrite Hw.
  set (d1 := zrem Q m (zunionstore S' [Q] d)).
  assert (Hq1 : zset_at Q d1 = delete m (zset_at Q d))
    by (subst d1; by read_store).
  assert (Hs1 : zset_at S' d1 = zset_at Q d) by (subst d1; by read_store).
  assert (Hlost : members_lost self d1 = true).
  { unfold members_lost, zcard. rewrite Hq1, Hs1.
    rewrite exists_nonempty by (rewrite Hs1; intros E; by rewrite E in Hl).
    rewrite map_size_delete_Some by (by eexists). simpl.
    apply negb_true_iff, Nat.eqb_neq.
    assert (size (zset_at Q d) ≠ 0%nat)
      by (apply map_size_non_empty_iff; intros E; by rewrite E in Hl).
    lia. }
  unfold caught. destruct (is_Exception e); [destruct (str e)|];
    cbv [contained emit];
    cbn [fst snd db _next_item pending contention world trace];
    rewrite run_recovery_unfold, Hlost; cbn [fst db]; read_store; done.
Qed.

(** X12.  With no rival write and an empty or absent queue, the loop makes
    pass after pass without end: no callback is called, the store stays as
    it is, and every pass but the first of a loop entered with the flag
    false sleeps before it polls. *)
Theorem empty_queue_idles (st : state World) (k : nat) (b : bool) :
  contention st = [] →
  zset_at Q (db st) = ∅ →
  ∃ st', _run_passes self k b st = Some (match k with O => b | _ => true end, st')
         ∧ _run_loop self k b st = None
         ∧ db st' = db st
         ∧ world st' = world st
         ∧ processed (trace st') = processed (trace st)
         ∧ sleeps (trace st')
           = (sleeps (trace st) + if b then k else pred k)%nat.
Proof.
  intros Hc Hq. apply peek_nil in Hq.
  assert (∃ st', _run_passes self k b st
                 = Some (match k with O => b | _ => true end, st')
         ∧ db st' = db st
         ∧ world st' = world st
         ∧ processed (trace st') = processed (trace st)
         ∧ sleeps (trace st')
           = (sleeps (trace st) + if b then k else pred k)%nat)
    as (st' & Hk & H).
  { revert st b Hc Hq. induction k as [|k IH]; intros st b Hc Hq.
    - exists st. cbn. split_and!; try done. destruct b; lia.
    - destruct st as [d ni pe co w tr]. simpl in *. subst co.
      destruct (pass_idle self b d ni pe w tr Hq) as (tr' & Hi & Hp' & Hs').
      rewrite Hi.
      destruct (IH (State d (VNone, VNone) [] [] w (tr ++ tr')) true
                  eq_refl Hq) as (st' & Hk & Hd & Hw & Hpr & Hsl).
      exists st'. cbn [db world trace] in *. split_and!; try done.
      + rewrite Hk. by destruct k.
      + by rewrite Hpr, processed_app, Hp', app_nil_r.
      + rewrite Hsl, sleeps_app, Hs'. destruct b; lia. }
  exists st'. split; [done|]. split; [|done].
  replace k with (k + 0)%nat at 1 by lia.
  by rewrite (_run_loop_passes self _ _ _ _ _ _ Hk).
Qed.

Lemma drain_passes (k : nat) :
  (∀ score member w, (ready_to_process self score member w).2 = Ret true) →
  (∀ score member w, (process self score member w).2 = Ret tt) →
  ∀ (st : state World) (b : bool),
    contention st = [] →
    let order := claim_order self (zset_at Q (db st)) in
    ∃ b' st',
      _run_passes self k b st = Some (b', st')
      ∧ processed (trace st')
        = processed (trace st)
            ++ ((λ i : item, (VNum i.2, VStr i.1)) <$> take k order)
      ∧ claim_order self (zset_at Q (db st')) = drop k order
      ∧ (zset_at S' (db st) = zset_at Q (db st)
         ∨ (order ≠ [] ∧ (0 < k)%nat) →
         zset_at S' (db st') = zset_at Q (db st')).
Proof.
  intros Hready Hproc. induction k as [|k IH]; intros st b Hc order.
  - exists b, st. cbn. rewrite app_nil_r. split_and!; try done.
    intros [H|[_ H]]; [done|lia].
  - destruct st as [d ni pe co w tr]. simpl in Hc. subst co.
    cbn [db trace] in *. cbn [_run_passes].
    pose proof (peek_claim_order self d) as Hp. fold order in Hp.
    destruct order as [|[m s] l] eqn:Ho.
    + destruct (pass_idle self b d ni pe w tr Hp) as (tr' & -> & Hp' & _).
      destruct (IH (State d (VNone, VNone) [] [] w (tr ++ tr')) true eq_refl)
        as (b' & st' & Hk & Hpr & Hord & Hinv).
      cbn [db trace] in *. fold order in Hord, Hpr. rewrite Ho in Hord, Hpr.
      exists b', st'. split_and!; [done| |by rewrite Hord, !drop_nil|].
      * rewrite Hpr, processed_app, Hp'. by rewrite !take_nil, app_nil_r.
      * intros [H|[H _]]; [|done]. apply Hinv. by left.
    + simpl in Hp. rewrite take_0 in Hp.
      specialize (Hready (VNum s) (VStr m) w) as Hr.
      destruct (ready_to_process self (VNum s) (VStr m) w) as [w1 r1] eqn:Er.
      simpl in Hr. subst r1.
      destruct (pass_claimed self b d ni pe w tr m s w1 Hp Er)
        as (tr' & -> & Hp' & _).
      specialize (Hproc (VNum s) (VStr m) w1) as Hw.
      destruct (process self (VNum s) (VStr m) w1) as [w2 r2].
      simpl in Hw. subst r2.
      match goal with |- context [_run_passes self k false ?st1] =>
        destruct (IH st1 false eq_refl) as (b' & st' & Hk & Hpr & Hord & Hinv)
      end.
      cbn [db trace] in *.
      assert (Hq1 : zset_at Q (zrem S' m (zrem Q m (zunionstore S' [Q] d)))
                    = delete m (zset_at Q d)) by (by read_store).
      assert (Hs1 : zset_at S' (zrem S' m (zrem Q m (zunionstore S' [Q] d)))
                    = delete m (zset_at Q d)) by (by read_store).
      rewrite Hq1 in Hord, Hpr, Hinv. rewrite Hs1 in Hinv.
      rewrite (claim_order_delete self _ _ _ _ Ho) in Hord, Hpr.
      exists b', st'. split_and!; [done| |done|].
      * rewrite Hpr, !processed_app, Hp'. cbn. by rewrite <- app_assoc.
      * intros _. apply Hinv. by left.
Qed.

(** X13.  With no rival write, a predicate that always accepts and a
    [process] that always returns, [k] passes of the loop call [process]
    on the first [k] entries of the queue in its claim order, each once,
    and leave the others in the queue; once an entry was processed the
    snapshot is equal to the queue. *)
Theorem loop_processes_in_claim_order (st : state World) (k : nat) (b : bool) :
  contention st = [] →
  (∀ score member w, (ready_to_process self score member w).2 = Ret true) →
  (∀ score member w, (process self score member w).2 = Ret tt) →
  let order := claim_order self (zset_at Q (db st)) in
  ∃ b' st',
    _run_passes self k b st = Some (b', st')
    ∧ processed (trace st')
      = processed (trace st)
          ++ ((λ i : item, (VNum i.2, VStr i.1)) <$> take k order)
    ∧ claim_order self (zset_at Q (db st')) = drop k order
    ∧ (order ≠ [] → (0 < k)%nat →
       zset_at S' (db st') = zset_at Q (db st')).
Proof.
  intros Hc Hready Hproc order.
  destruct (drain_passes k Hready Hproc st b Hc)
    as (b' & st' & Hk & Hpr & Hord & Hinv).
  exists b', st'. split_and!; [done..|]. intros ? ?. apply Hinv. by right.
Qed.

(** X15.  Whatever the callbacks and the contention, [run] ends in three
    ways only: it is still in its loop when the fuel is spent; it returns,
    and then the loop was left by [KeyboardInterrupt]; or it raises what
    left the loop, which is not [KeyboardInterrupt] and, when every
    [Exception] that [process] raises can be formatted, no [Exception]
    either.  The handler of the interrupt itself never raises. *)
Theorem loop_left_by_base_exception_only (fuel : nat) (st : state World) :
  match run self fuel st with
  | None => _run_loop self fuel false (loop_entry self st) = None
  | Some (st', Ret _) =>
      ∃ st2, _run_loop self fuel false (loop_entry self st)
             = Some (st2, KeyboardInterrupt)
  | Some (st', Raise e) =>
      e ≠ KeyboardInterrupt
      ∧ _run_loop self fuel false (loop_entry self st) = Some (st', e)
      ∧ ((∀ score member w w' e',
            process self score member w = (w', Raise e') →
            is_Exception e' = true → printable e') →
         is_Exception e = false)
  end.
Proof.
  rewrite run_unfold.
  destruct (_run_loop self fuel false (loop_entry self st))
    as [[st2 e]|] eqn:E; [|done].
  destruct (_run_loop_exit self _ _ _ _ _ E) as [Hs He].
  destruct e; try done.
  destruct (run_interrupted_returns self st2 Hs) as [st' ->]. by eexists.
Qed.

(** X16.  Let the loop of [run] have made [k] passes and, with no rival
    write, let [KeyboardInterrupt] arrive while the predicate looks at the
    entry read in the next one.  Then [run] returns, given fuel for these
    passes; [process] was not called on the entry; the handler has put it
    back at the score it had, so that the queue is as that pass found it,
    and the snapshot is equal to it. *)
Theorem interrupted_predicate_loses_nothing (st : state World) (k fuel : nat)
    (sleep : bool) (st_k : state World) (s : Z) (m : string) (w : World) :
  _run_passes self k false (loop_entry self st) = Some (sleep, st_k) →
  contention st_k = [] →
  peek self (db st_k) = [(m, s)] →
  ready_to_process self (VNum s) (VStr m) (world st_k)
    = (w, Raise KeyboardInterrupt) →
  (k < fuel)%nat →
  ∃ st', run self fuel st = Some (st', Ret tt)
         ∧ zset_at Q (db st') = zset_at Q (db st_k)
         ∧ zset_at S' (db st') = zset_at Q (db st_k)
         ∧ processed (trace st') = processed (trace st_k)
         ∧ Commit [ZADD Q s m] ∈ trace st'.
Proof.
  intros Hk Hc Hp Hr Hf.
  destruct st_k as [d ni pe co w0 tr]. simpl in *. subst co.
  pose proof (peek_lookup self _ _ _ Hp) as Hl.
  rewrite run_unfold.
  replace fuel with (k + S (fuel - S k))%nat by lia.
  rewrite (_run_loop_passes self _ _ _ _ _ _ Hk).
  cbn [_run_loop]. rewrite _run_iteration_unfold.
  destruct (backoff_seq sleep d ni pe [] w0 tr) as (tr0 & -> & Hp0 & _).
  rewrite (dequeue_item self _ _ _ _ _ _ _ Hp). cbv zeta. rewrite Hr.
  unfold caught. cbn [is_Exception]. rewrite run_interrupted_requeue.
  eexists. split; [reflexivity|]. cbn [db trace]. read_store.
  split_and!; [by apply insert_id|done| |set_solver].
  rewrite !processed_app, Hp0. unfold peek_command.
  destruct (_reverse self); cbn; by rewrite !app_nil_r.
Qed.

End behaviour.

Lemma base_pass {World : Type} (redis_key : string) (reverse : bool)
    (sleep : bool) d ni pe (w : World) tr :
  ∃ d' ni' tr',
    _run_iteration (base redis_key reverse) sleep (State d ni pe [] w tr)
    = (State d' ni' [] [] w (tr ++ tr'), Ret true)
    ∧ zset_at redis_key d' = zset_at redis_key d
    ∧ filter is_commit tr' = [Commit []].
Proof.
  rewrite _run_iteration_unfold.
  destruct (peek_cases (base redis_key reverse : poller World) d)
    as [Hp|(m & s & Hp)].
  - destruct sleep; cbv [backoff emit];
      cbn [db _next_item pending contention world trace];
      rewrite (dequeue_empty _ _ _ _ _ _ Hp); cbn [is_not_None];
      cbn [db _next_item pending contention world trace];
      rewrite <- ?app_assoc; eexists _, _, _; (split; [reflexivity|]);
      by split.
  - destruct sleep; cbv [backoff emit];
      cbn [db _next_item pending contention world trace];
      rewrite (dequeue_item _ _ _ _ _ _ _ _ Hp); cbv zeta;
      cbn [ready_to_process process base is_Exception NotImplementedError
           is_not_None world];
      cbv [caught str is_Exception NotImplementedError contained emit
           set_world];
      cbn [db _next_item pending contention world trace];
      rewrite <- ?app_assoc; eexists _, _, _; (split; [reflexivity|]);
      (split; [|done]).
    all: apply zset_at_zunionstore_ne, snapshot_key_ne.
Qed.

(** X14.  An instance of the class itself, where [ready_to_process] and
    [process] raise [NotImplementedError]: with no rival write, the loop
    makes pass after pass without end, every pass ends with
    [sleep_between_runs] true, every commit is empty, and the queue stays
    as it is. *)
Theorem base_class_never_claims {World : Type} (redis_key : string)
    (reverse : bool) (st : state World) (k : nat) (b : bool) :
  contention st = [] →
  ∃ st', _run_passes (base redis_key reverse) k b st
         = Some (match k with O => b | _ => true end, st')
         ∧ _run_loop (base redis_key reverse) k b st = None
         ∧ zset_at redis_key (db st') = zset_at redis_key (db st)
         ∧ world st' = world st
         ∧ filter is_commit (trace st')
           = filter is_commit (trace st) ++ replicate k (Commit []).
Proof.
  intros Hc.
  assert (∃ st', _run_passes (base redis_key reverse) k b st
                 = Some (match k with O => b | _ => true end, st')
         ∧ zset_at redis_key (db st') = zset_at redis_key (db st)
         ∧ world st' = world st
         ∧ filter is_commit (trace st')
           = filter is_commit (trace st) ++ replicate k (Commit []))
    as (st' & Hk & H).
  { revert st b Hc. induction k as [|k IH]; intros st b Hc.
    - exists st. cbn. by rewrite app_nil_r.
    - destruct st as [d ni pe co w tr]. simpl in Hc. subst co.
      cbn [_run_passes db trace world].
      destruct (base_pass redis_key reverse b d ni pe w tr)
        as (d' & ni' & tr' & -> & Hq & Hco).
      destruct (IH (State d' ni' [] [] w (tr ++ tr')) true eq_refl)
        as (st' & Hk & Hq' & Hw' & Hco').
      cbn [db trace world] in *.
      exists st'. split_and!.
      + rewrite Hk. by destruct k.
      + by rewrite Hq', Hq.
      + done.
      + rewrite Hco', filter_app, Hco, <- app_assoc. done. }
  exists st'. split; [done|]. split; [|done].
  replace k with (k + 0)%nat at 1 by lia.
  by rewrite (_run_loop_passes _ _ _ _ _ _ _ Hk).
Qed.

(** *** log *)

(** X2.  [log] returns whatever the method of the logger does: what it
    raises is swallowed, [KeyboardInterrupt] and [SystemExit] included.
    The method is called when the logger is there and has, under the name
    of the level, an attribute that is true in a test; in every other case
    nothing happens. *)
Theorem log_swallows_everything {World : Type}
    (self_logger : option (Logging.logger World)) (level message : string)
    (w : World) :
  (Logging.log self_logger level message w).2 = Ret tt
  ∧ (Logging.log self_logger level message w).1
    = match self_logger with
      | Some logger =>
          match logger level with
          | Some (Some logger_method) => (logger_method message w).1
          | _ => w
          end
      | None => w
      end.
Proof.
  unfold Logging.log. destruct self_logger as [logger|]; [|done].
  destruct (logger level) as [[logger_method|]|]; [|done..].
  by destruct (logger_method message w) as [w' [[]|e]].
Qed.

(** *** The properties at concrete pollers *)

(** X1 at two pollers on the key ["q"]. *)
Lemma snapshot_key_distinct_witness :
  _snapshot_key (poller_q (World := unit) false accept succeed) ≠ "q"
  ∧ _sorted_set_key (poller_q (World := unit) false accept succeed)
    = _sorted_set_key (poller_q (World := unit) true accept succeed).
Proof.
  destruct (snapshot_key_distinct
              (poller_q (World := unit) false accept succeed)
              (poller_q (World := unit) true accept succeed)) as [H1 H2].
  split; [exact H1|]. apply H2. reflexivity.
Defined.

(** X4 at the queue [{x: 5, y: 1}] with a former snapshot [{a: 5}]: the
    member [a] is gone from the snapshot. *)
Lemma dequeue_snapshot_mirrors_queue_witness :
  let st := start tt (<["q-snapshot" := {[ "a" := 5 ]}]> queue_xy) in
  zset_at "q-snapshot" (db (dequeue (poller_q false accept succeed) st).1)
  = {[ "x" := 5; "y" := 1 ]}.
Proof.
  etransitivity.
  - apply (dequeue_snapshot_mirrors_queue (poller_q false accept succeed)
             (start tt (<["q-snapshot" := {[ "a" := 5 ]}]> queue_xy)) "y" 1).
    + reflexivity.
    + vm_compute. reflexivity.
  - vm_compute. reflexivity.
Defined.

(** X5 at the queue [{x: 5, y: 1}]. *)
Lemma dequeue_removes_claimed_only_witness :
  let r := dequeue (poller_q false accept succeed) (start tt queue_xy) in
  r.2 = Ret (VNum 1, VStr "y")
  ∧ zset_at "q" (db r.1) = {[ "x" := 5 ]}
  ∧ zset_at "q-snapshot" (db r.1) !! "y" = Some 1.
Proof.
  pose proof (dequeue_removes_claimed_only (poller_q false accept succeed)
                (start tt queue_xy) eq_refl) as H.
  vm_compute in H. vm_compute. exact H.
Defined.

(** X6 at the queue [{y: 1}] and a rival that claims [y] first. *)
Lemma dequeue_returns_lost_claim_witness :
  let r := dequeue (poller_q false accept succeed) outrun in
  r.2 = Ret (VNum 1, VStr "y")
  ∧ zset_at "q" (db r.1) = ∅
  ∧ filter is_commit (trace r.1) = [Commit []].
Proof.
  destruct (dequeue_returns_lost_claim (poller_q false accept succeed)
              outrun "y" 1 tt (zrem "q" "y") [])
    as (H1 & _ & H3 & H4).
  - reflexivity.
  - vm_compute. reflexivity.
  - reflexivity.
  - vm_compute. reflexivity.
  - split_and!; [exact H1|exact H3|exact H4].
Defined.

(** X7 at the queue [{x: 5, y: 1}]: the score of [y] is replaced. *)
Lemma enqueue_adds_or_updates_witness :
  let r := enqueue (poller_q false accept succeed) (VNum 7) (VStr "y")
             (start tt queue_xy) in
  zset_at "q" (db r.1) = {[ "x" := 5; "y" := 7 ]}
  ∧ zset_at "q-snapshot" (db r.1) = ∅.
Proof.
  destruct (enqueue_adds_or_updates (poller_q false accept succeed)
              (start tt queue_xy) 7 "y") as (_ & _ & H).
  destruct (H eq_refl) as [H1 H2]. split.
  - etransitivity; [exact H1|]. vm_compute. reflexivity.
  - etransitivity; [apply (H2 "q-snapshot"); discriminate|]. reflexivity.
Defined.

(** X8 at a queue [{a: 1}] with the snapshot [{b: 2}]. *)
Lemma recovery_skipped_witness :
  db (run_recovery (poller_q false accept succeed) (start tt same_size)).1
  = same_size.
Proof.
  destruct (recovery_skipped (poller_q false accept succeed)
              (start tt same_size)) as (_ & H & _).
  - right. vm_compute. reflexivity.
  - exact H.
Defined.

(** X9 at the queue [{x: 5, y: 1}]. *)
Lemma claim_then_recovery_restores_witness :
  let self := poller_q false accept succeed in
  let st1 := (dequeue self (start tt queue_xy)).1 in
  let st2 := (run_recovery self st1).1 in
  zset_at "q" (db st1) !! "y" = None
  ∧ zset_at "q" (db st2) = {[ "x" := 5; "y" := 1 ]}.
Proof.
  destruct (claim_then_recovery_restores (poller_q false accept succeed)
              (start tt queue_xy) "y" 1 tt) as (H1 & H2 & _).
  - reflexivity.
  - vm_compute. reflexivity.
  - reflexivity.
  - split; [exact H1|]. etransitivity; [exact H2|]. vm_compute. reflexivity.
Defined.

(** X10 at the queue [{x: 5, y: 1}]. *)
Lemma processed_member_leaves_both_sets_witness :
  let r := _run_iteration (poller_q false accept succeed) false
             (start tt queue_xy) in
  r.2 = Ret false
  ∧ zset_at "q" (db r.1) !! "y" = None
  ∧ zset_at "q-snapshot" (db r.1) !! "y" = None.
Proof.
  destruct (processed_member_leaves_both_sets
              (poller_q false accept succeed) false (start tt queue_xy)
              "y" 1 tt tt) as (H1 & _ & _ & H4 & H5).
  - reflexivity.
  - vm_compute. reflexivity.
  - reflexivity.
  - reflexivity.
  - split_and!; [exact H1|exact H4|exact H5].
Defined.

(** X11 at the queue [{x: 5, y: 1}] and a [process] that raises: an
    exception that prints, and one whose [__str__] raises. *)
Lemma failed_member_kept_for_recovery_witness :
  let self := poller_q false accept (process_raising (UserError "boom")) in
  let r := _run_iteration self false (start tt queue_xy) in
  let self' :=
    poller_q false accept (process_raising (Unprintable (UserError "str"))) in
  let r' := _run_iteration self' false (start tt queue_xy) in
  r.2 = Ret true
  ∧ zset_at "q" (db r.1) = delete "y" {[ "x" := 5; "y" := 1 ]}
  ∧ zset_at "q" (db (run_recovery self r.1).1) = {[ "x" := 5; "y" := 1 ]}
  ∧ r'.2 = Raise (UserError "str")
  ∧ zset_at "q" (db (run_recovery self' r'.1).1) = {[ "x" := 5; "y" := 1 ]}.
Proof.
  destruct (failed_member_kept_for_recovery
              (poller_q false accept (process_raising (UserError "boom")))
              false (start tt queue_xy) "y" 1 tt tt (UserError "boom"))
    as (H1 & H2 & _ & _ & H5).
  - reflexivity.
  - vm_compute. reflexivity.
  - reflexivity.
  - reflexivity.
  - destruct (failed_member_kept_for_recovery
                (poller_q false accept
                   (process_raising (Unprintable (UserError "str"))))
                false (start tt queue_xy) "y" 1 tt tt
                (Unprintable (UserError "str")))
      as (H1' & _ & _ & _ & H5').
    + reflexivity.
    + vm_compute. reflexivity.
    + reflexivity.
    + reflexivity.
    + split_and!; [exact H1| | |exact H1'|].
      * etransitivity; [exact H2|]. vm_compute. reflexivity.
      * etransitivity; [exact H5|]. vm_compute. reflexivity.
      * etransitivity; [exact H5'|]. vm_compute. reflexivity.
Defined.

(** X12 at the empty store: three passes, two sleeps. *)
Lemma empty_queue_idles_witness :
  ∃ st', _run_passes (poller_q false accept succeed) 3 false (start tt ∅)
         = Some (true, st')
         ∧ _run_loop (poller_q false accept succeed) 3 false (start tt ∅)
           = None
         ∧ db st' = ∅
         ∧ sleeps (trace st') = 2%nat.
Proof.
  destruct (empty_queue_idles (poller_q false accept succeed) (start tt ∅)
              3 false) as (st' & H1 & H2 & H3 & _ & _ & H6).
  - reflexivity.
  - reflexivity.
  - exists st'. split_and!; [exact H1|exact H2|exact H3|exact H6].
Defined.

(** X13 at the queue [{x: 5, y: 1}] and three passes. *)
Lemma loop_processes_in_claim_order_witness :
  ∃ b' st', _run_passes (poller_q false accept succeed) 3 false
              (start tt queue_xy) = Some (b', st')
            ∧ processed (trace st')
              = [(VNum 1, VStr "y"); (VNum 5, VStr "x")]
            ∧ claim_order (poller_q (World := unit) false accept succeed)
                (zset_at "q" (db st')) = []
            ∧ zset_at "q-snapshot" (db st') = zset_at "q" (db st').
Proof.
  destruct (loop_processes_in_claim_order (poller_q false accept succeed)
              (start tt queue_xy) 3 false) as (b' & st' & H1 & H2 & H3 & H4).
  - reflexivity.
  - reflexivity.
  - reflexivity.
  - exists b', st'. split_and!; [exact H1| | |].
    + etransitivity; [exact H2|]. vm_compute. reflexivity.
    + etransitivity; [exact H3|]. vm_compute. reflexivity.
    + apply H4; [|lia]. vm_compute. discriminate.
Defined.

(** X14 at the queue [{y: 1}] and two passes. *)
Lemma base_class_never_claims_witness :
  ∃ st', _run_passes (base "q" false) 2 false (start tt queue_y)
         = Some (true, st')
         ∧ zset_at "q" (db st') = {[ "y" := 1 ]}
         ∧ filter is_commit (trace st') = [Commit []; Commit []].
Proof.
  destruct (base_class_never_claims "q" false (start tt queue_y) 2 false)
    as (st' & H1 & _ & H3 & _ & H5).
  - reflexivity.
  - exists st'. split_and!; [exact H1|exact H3|exact H5].
Defined.

(** X16 at the queue [{x: 5, y: 1}] and a predicate that is interrupted. *)
Lemma interrupted_predicate_loses_nothing_witness :
  ∃ st', run (poller_q false (predicate_raising KeyboardInterrupt) succeed)
           1 (start tt queue_xy) = Some (st', Ret tt)
         ∧ zset_at "q" (db st') = {[ "x" := 5; "y" := 1 ]}
         ∧ processed (trace st') = [].
Proof.
  destruct (interrupted_predicate_loses_nothing
              (poller_q false (predicate_raising KeyboardInterrupt) succeed)
              (start tt queue_xy) 0 1 false
              (loop_entry
                 (poller_q false (predicate_raising KeyboardInterrupt) succeed)
                 (start tt queue_xy))
              1 "y" tt) as (st' & H1 & H2 & _ & H4 & _).
  - reflexivity.
  - reflexivity.
  - vm_compute. reflexivity.
  - reflexivity.
  - lia.
  - exists st'. split_and!; [exact H1| |].
    + etransitivity; [exact H2|]. vm_compute. reflexivity.
    + etransitivity; [exact H4|]. vm_compute. reflexivity.
Defined.

(** X15 at the queue [{x: 5, y: 1}] and a [process] that raises an
    [Exception] at its first call and [SystemExit] at its second. *)
Lemma loop_left_by_base_exception_only_witness :
  ∃ st', run (poller_q false accept fails_then_exits) 2
           (start 0%nat queue_xy) = Some (st', Raise SystemExit)
         ∧ is_Exception SystemExit = false.
Proof.
  pose proof (loop_left_by_base_exception_only
                (poller_q false accept fails_then_exits) 2
                (start 0%nat queue_xy)) as H.
  destruct (run (poller_q false accept fails_then_exits) 2
              (start 0%nat queue_xy)) as [[st' [[]|e]]|] eqn:E.
  - vm_compute in E. discriminate E.
  - assert (e = SystemExit) as -> by (vm_compute in E; congruence).
    exists st'. split; [reflexivity|].
    destruct H as (_ & _ & H). apply H.
    intros score member w w' e Hp He.
    unfold process, poller_q, fails_then_exits in Hp.
    destruct (w =? 0)%nat; injection Hp as _ <-; [by exists "boom"|].
    discriminate He.
  - vm_compute in E. discriminate E.
Defined.

End Behaviour.
